(** * JSON Explorer: the document model, its two views and the editor state

    A shallow embedding of [src/components/JsonViewer.tsx]: the tree view
    ([createNode], [renderNode]), the formatted view
    ([renderSyntaxHighlightedJson]), the editor's handlers
    ([validateAndParseJson], [handleFileUpload], [formatJson], [minifyJson],
    [handleNodeToggle], [expandAll], [collapseAll]) and the parts of the
    JavaScript runtime they call ([JSON.stringify], [JSON.parse],
    [String.prototype.trim], [Number::toString]).

    Conventions.
    - A JavaScript string is a [string]; a character stands for one UTF-16
      code unit in the range 0..255.
    - React state is a record, a handler is a function from state to state.
    - A React element is a value of type [html]; [innerText] is the text a
      browser shows for it. *)

From Stdlib Require Import ZArith Ascii String List Lia Bool.
From Stdlib Require Lists.Finite.
From stdpp Require Import gmap strings list.
Import ListNotations.

Local Open Scope Z_scope.

(** ** Strings *)

Fixpoint repeat_string (s : string) (count : nat) : string :=
  match count with
  | O => ""
  | S count' => s +:+ repeat_string s count'
  end.

(** [s.endsWith(suffix)] *)
Definition endsWith (s suffix : string) : bool :=
  let n := String.length s in
  let m := String.length suffix in
  (m <=? n)%nat && String.eqb (String.substring (n - m) m s) suffix.

(** The characters [String.prototype.trim] strips (WhiteSpace and
    LineTerminator) among the code units below 256: TAB, LF, VT, FF, CR, SP
    and NBSP. *)
Definition is_trim_space (c : ascii) : bool :=
  match c with
  | "009" | "010" | "011" | "012" | "013" | " " | "160" => true
  | _ => false
  end%char.

Fixpoint trim_start (s : string) : string :=
  match s with
  | EmptyString => EmptyString
  | String c s' => if is_trim_space c then trim_start s' else s
  end.

(** [trim_end] drops the trailing run: a character stays when it is not a
    space or when something is left after it. *)
Fixpoint trim_end (s : string) : string :=
  match s with
  | EmptyString => EmptyString
  | String c s' =>
      match trim_end s' with
      | EmptyString => if is_trim_space c then EmptyString else String c EmptyString
      | t => String c t
      end
  end.

Definition trim (s : string) : string := trim_end (trim_start s).

Definition is_empty (s : string) : bool :=
  match s with EmptyString => true | _ => false end.

Fixpoint contains_char (c : ascii) (s : string) : bool :=
  match s with
  | EmptyString => false
  | String c' s' => Ascii.eqb c c' || contains_char c s'
  end.

(** Only characters that [trim] strips. *)
Fixpoint whitespace_only (s : string) : bool :=
  match s with
  | EmptyString => true
  | String c s' => is_trim_space c && whitespace_only s'
  end.

(** ** Decimal digits *)

Inductive digit := d0 | d1 | d2 | d3 | d4 | d5 | d6 | d7 | d8 | d9.

Definition digit_char (d : digit) : ascii :=
  match d with
  | d0 => "0" | d1 => "1" | d2 => "2" | d3 => "3" | d4 => "4"
  | d5 => "5" | d6 => "6" | d7 => "7" | d8 => "8" | d9 => "9"
  end%char.

Definition char_digit (c : ascii) : option digit :=
  match c with
  | "0" => Some d0 | "1" => Some d1 | "2" => Some d2 | "3" => Some d3
  | "4" => Some d4 | "5" => Some d5 | "6" => Some d6 | "7" => Some d7
  | "8" => Some d8 | "9" => Some d9 | _ => None
  end%char.

Definition digit_value (d : digit) : N :=
  match d with
  | d0 => 0 | d1 => 1 | d2 => 2 | d3 => 3 | d4 => 4
  | d5 => 5 | d6 => 6 | d7 => 7 | d8 => 8 | d9 => 9
  end%N.

Definition digit_of_N (n : N) : digit :=
  match n with
  | 0 => d0 | 1 => d1 | 2 => d2 | 3 => d3 | 4 => d4
  | 5 => d5 | 6 => d6 | 7 => d7 | 8 => d8 | _ => d9
  end%N.

Definition digit_is_zero (d : digit) : bool :=
  match d with d0 => true | _ => false end.

Fixpoint digits_string (ds : list digit) : string :=
  match ds with
  | [] => ""
  | d :: ds' => String (digit_char d) (digits_string ds')
  end.

(** The number a digit sequence denotes, most significant digit first. *)
Definition digits_value (ds : list digit) : N :=
  fold_left (fun acc d => (10 * acc + digit_value d)%N) ds 0%N.

Fixpoint digits_loop (fuel : nat) (n : N) (acc : list digit) : list digit :=
  match fuel with
  | O => acc
  | S fuel' =>
      let acc' := digit_of_N (n mod 10) :: acc in
      if (n <? 10)%N then acc' else digits_loop fuel' (n / 10) acc'
  end.

(** The decimal digits of [n], without leading zeros ([0] is the digit 0).
    A number has no more decimal digits than binary ones. *)
Definition digits_of_N (n : N) : list digit :=
  digits_loop (S (N.to_nat (N.log2 n))) n [].

Definition decimal (n : N) : string := digits_string (digits_of_N n).

(** ** Numbers

    A Number is kept as [Number::toString] (ECMA-262, 6.1.6.1.20) sees it: a
    finite non-zero value is a sign, the decimal digits [d1 ... dk] of its
    shortest representation and the exponent [n], and stands for
    [0.d1...dk * 10^n]. The two zeros are one value: they are [===], print
    alike and are both falsy, so this program cannot tell them apart. NaN is
    left out: [JSON.parse] never returns it. *)
Inductive number :=
| Zero
| Finite (negative : bool) (digits : list digit) (n : Z)
| Infinity (negative : bool).

Definition isFinite (x : number) : bool :=
  match x with Infinity _ => false | _ => true end.

Definition sign_string (negative : bool) : string :=
  if negative then "-" else "".

(** Steps 5 to 7 of [Number::toString] for the digits [ds] and exponent [n]. *)
Definition layout (ds : list digit) (n : Z) : string :=
  let k := Z.of_nat (length ds) in
  if (-5 <=? n) && (n <=? 21) then
    if k <=? n then
      digits_string ds +:+ digits_string (repeat d0 (Z.to_nat (n - k)))
    else if 0 <? n then
      digits_string (firstn (Z.to_nat n) ds) +:+ "." +:+
      digits_string (skipn (Z.to_nat n) ds)
    else
      "0." +:+ digits_string (repeat d0 (Z.to_nat (- n))) +:+ digits_string ds
  else
    let e := n - 1 in
    let exponent := (if e <? 0 then "-" else "+") +:+ decimal (Z.abs_N e) in
    match ds with
    | [] => ""
    | [d] => digits_string [d] +:+ "e" +:+ exponent
    | d :: rest =>
        digits_string [d] +:+ "." +:+ digits_string rest +:+ "e" +:+ exponent
    end.

Definition Number_toString (x : number) : string :=
  match x with
  | Zero => "0"
  | Finite negative ds n => sign_string negative +:+ layout ds n
  | Infinity negative => sign_string negative +:+ "Infinity"
  end.

(** ** JSON values *)

(** What [JSON.parse] returns. An object is the list of its own properties
    in the order [Object.keys] and [Object.entries] give them; its keys are
    distinct ([distinct_keys] below). *)
Unset Elimination Schemes.
Inductive JsonValue :=
| JNull
| JBool (b : bool)
| JNumber (x : number)
| JString (s : string)
| JArray (items : list JsonValue)
| JObject (props : list (string * JsonValue)).
Set Elimination Schemes.

(** [Object.keys] of an array: the indices, as decimal strings. *)
Definition index_key (i : nat) : string := decimal (N.of_nat i).

Fixpoint array_entries (i : nat) (items : list JsonValue) : list (string * JsonValue) :=
  match items with
  | [] => []
  | x :: items' => (index_key i, x) :: array_entries (S i) items'
  end.

(** [Object.entries(value || {})] *)
Definition entries (value : JsonValue) : list (string * JsonValue) :=
  match value with
  | JArray items => array_entries 0 items
  | JObject props => props
  | _ => []
  end.

(** [object_keys ok v]: the keys of every object in [v], [v] included,
    pass the test [ok]. *)
Fixpoint object_keys (ok : list string -> bool) (v : JsonValue) : bool :=
  match v with
  | JArray items => forallb (object_keys ok) items
  | JObject props =>
      ok (map fst props) && forallb (fun member => object_keys ok (snd member)) props
  | _ => true
  end.

Fixpoint distinct (ks : list string) : bool :=
  match ks with
  | [] => true
  | k :: ks' => negb (existsb (String.eqb k) ks') && distinct ks'
  end.

(** What every JavaScript object satisfies: no key twice. *)
Definition distinct_keys (v : JsonValue) : bool := object_keys distinct v.

Definition dot_free (k : string) : bool := negb (contains_char "." k).

(** No object key contains the character that separates path segments. *)
Definition dot_free_keys (v : JsonValue) : bool := object_keys (forallb dot_free) v.

(** The keys met on the way from [v] down to a position. *)
Fixpoint keys_at (v : JsonValue) (position : list nat) : option (list string) :=
  match position with
  | [] => Some []
  | i :: rest =>
      match nth_error (entries v) i with
      | Some (k, v') => option_map (cons k) (keys_at v' rest)
      | None => None
      end
  end.

(** [if (value)]: JavaScript truthiness. *)
Definition truthy (value : JsonValue) : bool :=
  match value with
  | JNull => false
  | JBool b => b
  | JNumber Zero => false
  | JNumber _ => true
  | JString s => negb (is_empty s)
  | JArray _ | JObject _ => true
  end.

Definition Boolean_toString (b : bool) : string :=
  if b then "true" else "false".

(** ** React elements *)

(** An element with its tag (or component name), [className], the
    [paddingLeft] of its [style] in pixels, and what a click on it does: the
    path handed to [onNodeToggle], if any. *)
Unset Elimination Schemes.
Inductive html :=
| Text (s : string)
| Element (tag className : string) (paddingLeft : option nat)
    (onClick : option string) (children : list html).
Set Elimination Schemes.

Definition span (className : string) (children : list html) : html :=
  Element "span" className None None children.

Definition br : html := Element "br" "" None None [].

Definition newline : string := String "010" "".

Definition quote : string := String "034" "".

(** The text a browser shows for an element laid out inline, as inside the
    formatted view's [<pre>]: [<br />] is a line break. *)
Fixpoint innerText (h : html) : string :=
  match h with
  | Text s => s
  | Element tag _ _ _ children =>
      if String.eqb tag "br" then newline
      else fold_right (fun child rest => innerText child +:+ rest) "" children
  end.


(** How many elements with the given tag an element holds, itself included. *)
Fixpoint count_tag (wanted : string) (h : html) : nat :=
  match h with
  | Text _ => O
  | Element tag _ _ _ children =>
      ((if String.eqb tag wanted then 1 else 0) +
       fold_right (fun child rest => count_tag wanted child + rest) O children)%nat
  end.

(** The paths that a click somewhere on the element hands to [onNodeToggle]. *)
Fixpoint click_targets (h : html) : list string :=
  match h with
  | Text _ => []
  | Element _ _ _ onClick children =>
      match onClick with Some path => [path] | None => [] end ++
      fold_right (fun child rest => click_targets child ++ rest) [] children
  end.

(** ** The tree view, [JsonViewer] *)

Inductive JsonType := TObject | TArray | TString | TNumber | TBoolean | TNull.

Unset Elimination Schemes.
Inductive JsonNode := mkJsonNode {
  key : string;
  value : JsonValue;
  type : JsonType;
  path : string;
  isExpanded : bool;
  children : option (list JsonNode)
}.
Set Elimination Schemes.

Definition typeOf (value : JsonValue) : JsonType :=
  match value with
  | JNull => TNull
  | JArray _ => TArray
  | JObject _ => TObject
  | JBool _ => TBoolean
  | JNumber _ => TNumber
  | JString _ => TString
  end.

(** [`${path}.${k}`] *)
Definition childPath (path k : string) : string := path +:+ "." +:+ k.

Fixpoint createNode (expandedPaths : gset string)
    (key : string) (value : JsonValue) (path : string) : JsonNode :=
  mkJsonNode key value (typeOf value) path (bool_decide (path ∈ expandedPaths))
    match value with
    | JArray items =>
        Some ((fix each (i : nat) (items : list JsonValue) : list JsonNode :=
                 match items with
                 | [] => []
                 | v :: items' =>
                     createNode expandedPaths (index_key i) v
                       (childPath path (index_key i)) :: each (S i) items'
                 end) O items)
    | JObject props =>
        Some ((fix each (props : list (string * JsonValue)) : list JsonNode :=
                 match props with
                 | [] => []
                 | (k, v) :: props' =>
                     createNode expandedPaths k v (childPath path k) :: each props'
                 end) props)
    | _ => None
    end.

(** The children of the node at [parent] for the listed members. *)
Definition createNodes (expanded : gset string) (parent : string)
    (members : list (string * JsonValue)) : list JsonNode :=
  map (fun member => createNode expanded (fst member) (snd member)
                       (childPath parent (fst member))) members.

(** What React shows for [{value}] when [value] is a string or a number. *)
Definition child_text (value : JsonValue) : string :=
  match value with
  | JString s => s
  | JNumber x => Number_toString x
  | _ => ""
  end.

Definition renderValue (value : JsonValue) (type : JsonType) : list html :=
  match type with
  | TString => [span "json-string" [Text quote; Text (child_text value); Text quote]]
  | TNumber => [span "json-number" [Text (child_text value)]]
  | TBoolean =>
      [span "json-boolean"
         [Text (match value with JBool b => Boolean_toString b | _ => "" end)]]
  | TNull => [span "json-null" [Text "null"]]
  | _ => []
  end.

Definition is_container (t : JsonType) : bool :=
  match t with TObject | TArray => true | _ => false end.

Definition is_array (t : JsonType) : bool :=
  match t with TArray => true | _ => false end.

(** [node.children && node.children.length > 0] *)
Definition hasChildren (node : JsonNode) : bool :=
  match children node with
  | Some (_ :: _) => true
  | _ => false
  end.

(** [node.children?.length || 0] *)
Definition children_count (node : JsonNode) : nat :=
  match children node with
  | Some kids => length kids
  | None => O
  end.

Fixpoint renderNode (node : JsonNode) (depth : nat) : html :=
  let indent := (depth * 20)%nat in
  let array := is_array (type node) in
  Element "div" "tree-item" None None
    (Element "div" "flex items-center py-1 px-2 cursor-pointer"
       (Some (indent + 8)%nat)
       (if hasChildren node then Some (path node) else None)
       ([ if hasChildren node then
            Element "button" "tree-expand-button mr-1 p-0.5 hover:bg-accent rounded"
              None None
              [ if isExpanded node
                then Element "ChevronDown" "w-3 h-3" None None []
                else Element "ChevronRight" "w-3 h-3" None None [] ]
          else Element "div" "w-4 mr-1" None None [];
          span "json-key mr-2" [Text (key node)];
          span "json-colon mr-2" [Text ":"] ]
        ++
        (if is_container (type node) then
           [ span "json-bracket"
               (Text (if array then "[" else "{") ::
                (if negb (isExpanded node) then
                   [ span "text-muted-foreground text-xs ml-1"
                       [ Text (decimal (N.of_nat (children_count node)));
                         Text " ";
                         Text (if array then "items" else "keys") ];
                     span "ml-1" [Text (if array then "]" else "}")] ]
                 else [])) ]
         else renderValue (value node) (type node)))
     ::
     (if hasChildren node && isExpanded node then
        [ Element "div" "" None None
            (match children node with
             | Some kids => map (fun child => renderNode child (S depth)) kids
             | None => []
             end
             ++
             [ Element "div" "json-bracket" (Some (indent + 8)%nat) None
                 [Text (if array then "]" else "}")] ]) ]
      else [])).

Definition set_isExpanded (node : JsonNode) (b : bool) : JsonNode :=
  mkJsonNode (key node) (value node) (type node) (path node) b (children node).

(** The component: nothing for falsy [data], else the root's children. *)
Definition JsonViewer (data : JsonValue) (expandedPaths : gset string) : option html :=
  if negb (truthy data) then None
  else
    let rootNode := set_isExpanded (createNode expandedPaths "root" data "root") true in
    Some (Element "div" "font-mono text-sm" None None
            (match children rootNode with
             | Some kids => map (fun child => renderNode child O) kids
             | None => []
             end)).

(** The paths of a node and of the nodes below it, parents first. *)
Fixpoint node_paths (node : JsonNode) : list string :=
  path node ::
  match children node with
  | Some kids => flat_map node_paths kids
  | None => []
  end.

(** The node at a position: the position [i :: rest] is the position [rest]
    under the child number [i]. *)
Fixpoint node_at (node : JsonNode) (position : list nat) {struct position}
    : option JsonNode :=
  match position with
  | [] => Some node
  | i :: rest =>
      match children node with
      | Some kids =>
          (fix pick (kids : list JsonNode) (i : nat) : option JsonNode :=
             match kids, i with
             | [], _ => None
             | kid :: _, O => node_at kid rest
             | _ :: kids', S i' => pick kids' i'
             end) kids i
      | None => None
      end
  end.

(** The path [createNode] gives to the node reached from [path] by [keys]. *)
Definition join (path : string) (keys : list string) : string :=
  fold_left childPath keys path.

(** What [join] appends to the path it starts from. *)
Fixpoint suffix (ks : list string) : string :=
  match ks with
  | [] => ""
  | k :: ks' => "." +:+ k +:+ suffix ks'
  end.

(** ** The formatted view *)

Definition nonempty {A} (l : list A) : bool :=
  match l with [] => false | _ => true end.

(** In the two [map] callbacks, [index < length - 1] holds exactly when
    elements remain after the current one; [obj[key]] for a [key] taken from
    [Object.keys(obj)] is the value listed with that key. *)
Fixpoint renderSyntaxHighlightedJson (obj : JsonValue) (depth : nat) : html :=
  let indent := repeat_string "  " depth in
  match obj with
  | JNull => span "json-null" [Text "null"]
  | JString s => span "json-string" [Text quote; Text s; Text quote]
  | JNumber x => span "json-number" [Text (Number_toString x)]
  | JBool b => span "json-boolean" [Text (Boolean_toString b)]
  | JArray [] => span "json-bracket" [Text "[]"]
  | JArray items =>
      span ""
        (span "json-bracket" [Text "["] ::
         (fix each (items : list JsonValue) : list html :=
            match items with
            | [] => []
            | item :: rest =>
                span ""
                  ([br; Text indent; Text "  ";
                    renderSyntaxHighlightedJson item (S depth)]
                   ++ (if nonempty rest then [span "json-comma" [Text ","]] else []))
                :: each rest
            end) items
         ++ [br; Text indent; span "json-bracket" [Text "]"]])
  | JObject [] => span "json-brace" [Text "{}"]
  | JObject props =>
      span ""
        (span "json-brace" [Text "{"] ::
         (fix each (props : list (string * JsonValue)) : list html :=
            match props with
            | [] => []
            | (key, item) :: rest =>
                span ""
                  ([br; Text indent; Text "  ";
                    span "json-key" [Text quote; Text key; Text quote];
                    span "json-colon" [Text ": "];
                    renderSyntaxHighlightedJson item (S depth)]
                   ++ (if nonempty rest then [span "json-comma" [Text ","]] else []))
                :: each rest
            end) props
         ++ [br; Text indent; span "json-brace" [Text "}"]])
  end.

(** The rows of the two [map] calls above. *)
Fixpoint array_rows (depth : nat) (items : list JsonValue) : list html :=
  match items with
  | [] => []
  | item :: rest =>
      span ""
        ([br; Text (repeat_string "  " depth); Text "  ";
          renderSyntaxHighlightedJson item (S depth)]
         ++ (if nonempty rest then [span "json-comma" [Text ","]] else []))
      :: array_rows depth rest
  end.

Fixpoint object_rows (depth : nat) (props : list (string * JsonValue)) : list html :=
  match props with
  | [] => []
  | (key, item) :: rest =>
      span ""
        ([br; Text (repeat_string "  " depth); Text "  ";
          span "json-key" [Text quote; Text key; Text quote];
          span "json-colon" [Text ": "];
          renderSyntaxHighlightedJson item (S depth)]
         ++ (if nonempty rest then [span "json-comma" [Text ","]] else []))
      :: object_rows depth rest
  end.

(** ** [JSON.stringify] (ECMA-262, 25.5.2) *)

Definition hex_char (n : nat) : ascii :=
  match n with
  | 0 => "0" | 1 => "1" | 2 => "2" | 3 => "3" | 4 => "4" | 5 => "5"
  | 6 => "6" | 7 => "7" | 8 => "8" | 9 => "9" | 10 => "a" | 11 => "b"
  | 12 => "c" | 13 => "d" | 14 => "e" | _ => "f"
  end%nat%char.

Definition backslash : string := String "092" "".

(** One code unit inside [QuoteJSONString]: the short escapes, [\u00XX] for
    the other control characters, and the character itself otherwise. *)
Definition escape_char (c : ascii) : string :=
  match c with
  | "008" => backslash +:+ "b"
  | "009" => backslash +:+ "t"
  | "010" => backslash +:+ "n"
  | "012" => backslash +:+ "f"
  | "013" => backslash +:+ "r"
  | "034" => backslash +:+ quote
  | "092" => backslash +:+ backslash
  | _ =>
      let code := nat_of_ascii c in
      if (code <? 32)%nat then
        backslash +:+ "u00" +:+
        String (hex_char (code / 16)) (String (hex_char (code mod 16)) "")
      else String c ""
  end%char.

Fixpoint escape_string (s : string) : string :=
  match s with
  | EmptyString => ""
  | String c s' => escape_char c +:+ escape_string s'
  end.

Definition QuoteJSONString (s : string) : string :=
  quote +:+ escape_string s +:+ quote.

(** [SerializeJSONProperty] with [SerializeJSONArray] and
    [SerializeJSONObject] inlined; [indent] is the current indentation and
    [gap] the unit added per level. *)
Fixpoint SerializeJSONProperty (gap indent : string) (value : JsonValue) : string :=
  match value with
  | JNull => "null"
  | JBool b => Boolean_toString b
  | JString s => QuoteJSONString s
  | JNumber x => if isFinite x then Number_toString x else "null"
  | JArray items =>
      let stepback := indent in
      let indent := indent +:+ gap in
      let partial :=
        (fix each (items : list JsonValue) : list string :=
           match items with
           | [] => []
           | item :: rest => SerializeJSONProperty gap indent item :: each rest
           end) items in
      if nonempty partial then
        if is_empty gap then "[" +:+ String.concat "," partial +:+ "]"
        else
          "[" +:+ newline +:+ indent +:+
          String.concat ("," +:+ newline +:+ indent) partial +:+
          newline +:+ stepback +:+ "]"
      else "[]"
  | JObject props =>
      let stepback := indent in
      let indent := indent +:+ gap in
      let partial :=
        (fix each (props : list (string * JsonValue)) : list string :=
           match props with
           | [] => []
           | (P, item) :: rest =>
               (QuoteJSONString P +:+ ":" +:+ (if is_empty gap then "" else " ") +:+
                SerializeJSONProperty gap indent item) :: each rest
           end) props in
      if nonempty partial then
        if is_empty gap then "{" +:+ String.concat "," partial +:+ "}"
        else
          "{" +:+ newline +:+ indent +:+
          String.concat ("," +:+ newline +:+ indent) partial +:+
          newline +:+ stepback +:+ "}"
      else "{}"
  end.

(** The [partial] lists of [SerializeJSONProperty]. *)
Definition array_partial (gap indent : string) (items : list JsonValue) : list string :=
  map (SerializeJSONProperty gap indent) items.

Definition object_partial (gap indent : string) (props : list (string * JsonValue))
    : list string :=
  map (fun member =>
         QuoteJSONString (fst member) +:+ ":" +:+
         (if is_empty gap then "" else " ") +:+
         SerializeJSONProperty gap indent (snd member)) props.

(** [JSON.stringify(value)] and [JSON.stringify(value, null, space)]: the gap
    is [space] blanks, ten at most. *)
Definition JSON_stringify (value : JsonValue) (space : nat) : string :=
  SerializeJSONProperty (repeat_string " " (Nat.min space 10)) "" value.

(** *** Values that print without escapes *)




(** ** [JSON.parse] (ECMA-262, 25.5.1; the grammar of ECMA-404) *)

Definition is_json_space (c : ascii) : bool :=
  match c with
  | "009" | "010" | "013" | " " => true
  | _ => false
  end%char.

Fixpoint skip_ws (s : string) : string :=
  match s with
  | String c s' => if is_json_space c then skip_ws s' else s
  | EmptyString => EmptyString
  end.

(** The longest run of digits [s] starts with, and what follows it. *)
Fixpoint span_digits (s : string) : list digit * string :=
  match s with
  | EmptyString => ([], EmptyString)
  | String c s' =>
      match char_digit c with
      | Some d => let (ds, rest) := span_digits s' in (d :: ds, rest)
      | None => ([], s)
      end
  end.

(** *** Number literals *)

Fixpoint strip_leading_zeros (ds : list digit) (n : Z) : list digit * Z :=
  match ds with
  | d0 :: ds' => strip_leading_zeros ds' (n - 1)
  | _ => (ds, n)
  end.

Fixpoint strip_trailing_zeros (ds : list digit) : list digit :=
  match ds with
  | [] => []
  | d :: ds' =>
      match strip_trailing_zeros ds' with
      | [] => if digit_is_zero d then [] else [d]
      | t => d :: t
      end
  end.

(** The literals that round to an infinity are those of magnitude at least
    [2^1024 - 2^970]; those that round to zero have magnitude at most
    [2^-1075]. Both are decided exactly on [0.ds * 10^n]. *)
Definition overflows (ds : list digit) (n : Z) : bool :=
  let m := Z.of_N (digits_value ds) in
  let e := n - Z.of_nat (length ds) in
  if 0 <=? e then 2 ^ 1024 - 2 ^ 970 <=? m * 10 ^ e
  else (2 ^ 1024 - 2 ^ 970) * 10 ^ (- e) <=? m.

Definition underflows (ds : list digit) (n : Z) : bool :=
  let m := Z.of_N (digits_value ds) in
  let e := n - Z.of_nat (length ds) in
  if 0 <=? e then false
  else m * 2 ^ 1075 <=? 10 ^ (- e).

(** The Number for the literal with integer digits [int], fraction digits
    [frac] and exponent [exp]. Rounding of the significand to 53 bits is not
    modelled: the literal keeps its digits. The literals [Number::toString]
    prints are their own shortest representation, and for those the result
    is the Number that was printed. *)
Definition number_of_literal (negative : bool) (int frac : list digit) (exp : Z) : number :=
  let (ds, n) := strip_leading_zeros (int ++ frac) (Z.of_nat (length int) + exp) in
  let ds := strip_trailing_zeros ds in
  if nonempty ds then
    if overflows ds n then Infinity negative
    else if underflows ds n then Zero
    else Finite negative ds n
  else Zero.

Definition head_nonzero (ds : list digit) : bool :=
  match ds with
  | [] => false
  | d :: _ => negb (digit_is_zero d)
  end.

Fixpoint last_nonzero (ds : list digit) : bool :=
  match ds with
  | [] => false
  | [d] => negb (digit_is_zero d)
  | _ :: ds' => last_nonzero ds'
  end.

(** The Numbers [JSON.parse] returns: the digits of a finite non-zero one
    start and end with a non-zero digit, and its magnitude is in range. *)
Definition wf_number (x : number) : bool :=
  match x with
  | Finite _ ds n =>
      head_nonzero ds && last_nonzero ds
      && negb (overflows ds n) && negb (underflows ds n)
  | _ => true
  end.


Definition parse_sign (s : string) : bool * string :=
  match s with
  | String "-" s' => (true, s')
  | _ => (false, s)
  end.

(** [int]: a single 0, or digits not starting with 0. *)
Definition parse_int (s : string) : option (list digit * string) :=
  match span_digits s with
  | ([], _) => None
  | (d0 :: _ :: _, _) => None
  | r => Some r
  end.

(** [frac]: nothing, or a point and at least one digit. *)
Definition parse_frac (s : string) : option (list digit * string) :=
  match s with
  | String "." s' =>
      match span_digits s' with
      | ([], _) => None
      | r => Some r
      end
  | _ => Some ([], s)
  end.

(** [exp]: nothing, or e or E, an optional sign and at least one digit. *)
Definition parse_exp (s : string) : option (Z * string) :=
  match s with
  | String ("e" | "E") s' =>
      let (negative, s'') :=
        match s' with
        | String "-" r => (true, r)
        | String "+" r => (false, r)
        | _ => (false, s')
        end in
      match span_digits s'' with
      | ([], _) => None
      | (ds, rest) =>
          let e := Z.of_N (digits_value ds) in
          Some (if negative then - e else e, rest)
      end
  | _ => Some (0, s)
  end.

Definition parse_number (s : string) : option (number * string) :=
  let (negative, s) := parse_sign s in
  '(int, s) ← parse_int s;
  '(frac, s) ← parse_frac s;
  '(exp, s) ← parse_exp s;
  Some (number_of_literal negative int frac exp, s).

(** *** String literals *)

Definition char_hex (c : ascii) : option nat :=
  match char_digit c with
  | Some d => Some (N.to_nat (digit_value d))
  | None =>
      match c with
      | "a" | "A" => Some 10 | "b" | "B" => Some 11 | "c" | "C" => Some 12
      | "d" | "D" => Some 13 | "e" | "E" => Some 14 | "f" | "F" => Some 15
      | _ => None
      end%nat%char
  end.

(** The code unit of [\uh1h2h3h4]; one above 255 is not a character of this
    model and the literal is refused. *)
Definition unicode_escape (h1 h2 h3 h4 : ascii) : option ascii :=
  a ← char_hex h1; b ← char_hex h2; c ← char_hex h3; d ← char_hex h4;
  if ((a =? 0) && (b =? 0))%nat then Some (ascii_of_nat (16 * c + d)) else None.

Definition simple_escape (c : ascii) : option ascii :=
  match c with
  | "034" => Some "034"
  | "092" => Some "092"
  | "/" => Some "/"
  | "b" => Some "008"
  | "f" => Some "012"
  | "n" => Some "010"
  | "r" => Some "013"
  | "t" => Some "009"
  | _ => None
  end%char.

(** The characters of a string literal after its opening quote, up to the
    closing one. *)
Fixpoint parse_chars (s : string) : option (string * string) :=
  match s with
  | EmptyString => None
  | String "034" rest => Some ("", rest)
  | String "092" (String "u" (String h1 (String h2 (String h3 (String h4 s'))))) =>
      c ← unicode_escape h1 h2 h3 h4;
      '(chars, rest) ← parse_chars s';
      Some (String c chars, rest)
  | String "092" (String e s') =>
      c ← simple_escape e;
      '(chars, rest) ← parse_chars s';
      Some (String c chars, rest)
  | String "092" EmptyString => None
  | String c s' =>
      if (nat_of_ascii c <? 32)%nat then None
      else
        '(chars, rest) ← parse_chars s';
        Some (String c chars, rest)
  end.

(** *** Objects as [JSON.parse] builds them *)

(** An array index: the canonical decimal string of an integer below
    [2^32 - 1]. *)
Definition array_index (k : string) : option N :=
  match span_digits k with
  | (ds, EmptyString) =>
      if String.eqb (decimal (digits_value ds)) k
         && (digits_value ds <? 4294967295)%N
      then Some (digits_value ds) else None
  | _ => None
  end.

Fixpoint has_key (k : string) (props : list (string * JsonValue)) : bool :=
  match props with
  | [] => false
  | (k', _) :: props' => String.eqb k' k || has_key k props'
  end.

Fixpoint replace_value (k : string) (v : JsonValue)
    (props : list (string * JsonValue)) : list (string * JsonValue) :=
  match props with
  | [] => []
  | (k', v') :: props' =>
      if String.eqb k' k then (k', v) :: props'
      else (k', v') :: replace_value k v props'
  end.

(** A new index key goes after the smaller index keys. *)
Fixpoint insert_index (i : N) (k : string) (v : JsonValue)
    (props : list (string * JsonValue)) : list (string * JsonValue) :=
  match props with
  | [] => [(k, v)]
  | (k', v') :: props' =>
      match array_index k' with
      | Some j =>
          if (j <? i)%N then (k', v') :: insert_index i k v props'
          else (k, v) :: props
      | None => (k, v) :: props
      end
  end.

(** [CreateDataProperty]: a key already there keeps its place and takes the
    new value; a new key is listed where [OrdinaryOwnPropertyKeys] puts it,
    array indices first in ascending order, the other keys after them in
    order of creation. *)
Definition define_property (props : list (string * JsonValue))
    (member : string * JsonValue) : list (string * JsonValue) :=
  let (k, v) := member in
  if has_key k props then replace_value k v props
  else
    match array_index k with
    | Some i => insert_index i k v props
    | None => props ++ [(k, v)]
    end.

Definition build_object (members : list (string * JsonValue)) : JsonValue :=
  JObject (fold_left define_property members []).

(** *** Values *)

Fixpoint strip_prefix (p s : string) : option string :=
  match p, s with
  | EmptyString, _ => Some s
  | String a p', String b s' => if Ascii.eqb a b then strip_prefix p' s' else None
  | _, _ => None
  end.

(** A value at the head of [s] and the rest of the text. [fuel] bounds the
    number of nested calls; [JSON_parse_text] gives enough for any text. *)
Fixpoint parse_value (fuel : nat) (s : string) {struct fuel}
    : option (JsonValue * string) :=
  match fuel with
  | O => None
  | S fuel' =>
      match s with
      | EmptyString => None
      | String "[" s' =>
          match skip_ws s' with
          | String "]" rest => Some (JArray [], rest)
          | s'' =>
              '(items, rest) ← parse_elements fuel' s'';
              Some (JArray items, rest)
          end
      | String "{" s' =>
          match skip_ws s' with
          | String "}" rest => Some (JObject [], rest)
          | s'' =>
              '(members, rest) ← parse_members fuel' s'';
              Some (build_object members, rest)
          end
      | String "034" s' =>
          '(chars, rest) ← parse_chars s';
          Some (JString chars, rest)
      | String "n" _ => rest ← strip_prefix "null" s; Some (JNull, rest)
      | String "t" _ => rest ← strip_prefix "true" s; Some (JBool true, rest)
      | String "f" _ => rest ← strip_prefix "false" s; Some (JBool false, rest)
      | _ =>
          '(x, rest) ← parse_number s;
          Some (JNumber x, rest)
      end
  end
with parse_elements (fuel : nat) (s : string) {struct fuel}
    : option (list JsonValue * string) :=
  match fuel with
  | O => None
  | S fuel' =>
      '(item, rest) ← parse_value fuel' s;
      match skip_ws rest with
      | String "," rest' =>
          '(items, rest'') ← parse_elements fuel' (skip_ws rest');
          Some (item :: items, rest'')
      | String "]" rest' => Some ([item], rest')
      | _ => None
      end
  end
with parse_members (fuel : nat) (s : string) {struct fuel}
    : option (list (string * JsonValue) * string) :=
  match fuel with
  | O => None
  | S fuel' =>
      match s with
      | String "034" s' =>
          '(k, rest) ← parse_chars s';
          match skip_ws rest with
          | String ":" rest' =>
              '(item, rest'') ← parse_value fuel' (skip_ws rest');
              match skip_ws rest'' with
              | String "," r =>
                  '(members, r') ← parse_members fuel' (skip_ws r);
                  Some ((k, item) :: members, r')
              | String "}" r => Some ([(k, item)], r)
              | _ => None
              end
          | _ => None
          end
      | _ => None
      end
  end.

(** The grammar that [parse_value] decides, without the fuel:
    [Parses s v rest] when the text [s] starts with a value that reads as
    [v] and goes on with [rest]. *)
Inductive Parses : string -> JsonValue -> string -> Prop :=
| Parses_null s rest :
    strip_prefix "null" s = Some rest -> Parses s JNull rest
| Parses_true s rest :
    strip_prefix "true" s = Some rest -> Parses s (JBool true) rest
| Parses_false s rest :
    strip_prefix "false" s = Some rest -> Parses s (JBool false) rest
| Parses_number s x rest :
    parse_number s = Some (x, rest) -> Parses s (JNumber x) rest
| Parses_string s chars rest :
    parse_chars s = Some (chars, rest) ->
    Parses (String "034" s) (JString chars) rest
| Parses_empty_array s rest :
    skip_ws s = String "]" rest -> Parses (String "[" s) (JArray []) rest
| Parses_array s items rest :
    ParsesElements (skip_ws s) items rest ->
    Parses (String "[" s) (JArray items) rest
| Parses_empty_object s rest :
    skip_ws s = String "}" rest -> Parses (String "{" s) (JObject []) rest
| Parses_object s members rest :
    ParsesMembers (skip_ws s) members rest ->
    Parses (String "{" s) (build_object members) rest
with ParsesElements : string -> list JsonValue -> string -> Prop :=
| ParsesElements_last s item r rest :
    Parses s item r -> skip_ws r = String "]" rest ->
    ParsesElements s [item] rest
| ParsesElements_more s item r r' items rest :
    Parses s item r -> skip_ws r = String "," r' ->
    ParsesElements (skip_ws r') items rest ->
    ParsesElements s (item :: items) rest
with ParsesMembers : string -> list (string * JsonValue) -> string -> Prop :=
| ParsesMembers_last s k r0 r1 item r rest :
    parse_chars s = Some (k, r0) -> skip_ws r0 = String ":" r1 ->
    Parses (skip_ws r1) item r -> skip_ws r = String "}" rest ->
    ParsesMembers (String "034" s) [(k, item)] rest
| ParsesMembers_more s k r0 r1 item r r' members rest :
    parse_chars s = Some (k, r0) -> skip_ws r0 = String ":" r1 ->
    Parses (skip_ws r1) item r -> skip_ws r = String "," r' ->
    ParsesMembers (skip_ws r') members rest ->
    ParsesMembers (String "034" s) ((k, item) :: members) rest.

Scheme Parses_mut := Minimality for Parses Sort Prop
  with ParsesElements_mut := Minimality for ParsesElements Sort Prop
  with ParsesMembers_mut := Minimality for ParsesMembers Sort Prop.

Combined Scheme Parses_mutind
  from Parses_mut, ParsesElements_mut, ParsesMembers_mut.

(** The value of a whole text, or nothing where [JSON.parse] throws a
    [SyntaxError]. *)
Definition JSON_parse_text (text : string) : option JsonValue :=
  '(value, rest) ← parse_value (2 * String.length text + 2) (skip_ws text);
  if is_empty (skip_ws rest) then Some value else None.

(** *** The values [JSON.parse] returns *)

(** The order of own property keys: an array index stands before a larger
    one and before every other key. *)
Definition key_before (k1 k2 : string) : bool :=
  match array_index k1, array_index k2 with
  | Some i, Some j => (i <? j)%N
  | None, Some _ => false
  | _, None => true
  end.

Fixpoint ordered (ks : list string) : bool :=
  match ks with
  | [] => true
  | k :: ks' => forallb (key_before k) ks' && ordered ks'
  end.

(** Numbers are well formed, and the keys of every object are distinct and
    in the order of own property keys. *)
Fixpoint wf (v : JsonValue) : bool :=
  match v with
  | JNumber x => wf_number x
  | JArray items => forallb wf items
  | JObject props =>
      distinct (map fst props) && ordered (map fst props)
      && forallb (fun member => wf (snd member)) props
  | _ => true
  end.







(** The property lists [define_property] keeps: distinct keys in the order
    of own property keys, and well-formed values. *)
Definition good (props : list (string * JsonValue)) : Prop :=
  List.NoDup (map fst props) /\
  ordered (map fst props) = true /\
  Forall (fun member => wf (snd member) = true) props.


(** ** The editor, [JsonEditor] *)

(** The component's [useState] cells. [parsedJson] is [null] ([JNull])
    while there is no document. *)
Record EditorState := mkEditorState {
  jsonInput : string;
  parsedJson : JsonValue;
  validationError : string;
  expandedPaths : gset string;
  activeTab : string
}.

Record Toast := mkToast {
  title : string;
  description : string;
  variant : string
}.

Record File := mkFile {
  file_name : string;
  file_type : string;
  file_content : string
}.

(** The component in its environment: the state cells, the timer the
    debounce effect has pending (milliseconds left and the [jsonInput] its
    callback captured), the toasts shown, the files a [FileReader] is
    reading, and, for the proofs only, the texts [validateAndParseJson] was
    called on, latest first. *)
Record Runtime := mkRuntime {
  state : EditorState;
  timeout : option (nat * string);
  toasts : list Toast;
  reading : list File;
  validated : list string
}.

Definition sampleJson : JsonValue :=
  JObject
    [ ("name", JString "John Doe");
      ("age", JNumber (Finite false [d3] 2));
      ("isActive", JBool true);
      ("address",
        JObject
          [ ("street", JString "123 Main St");
            ("city", JString "New York");
            ("zipCode", JString "10001");
            ("coordinates",
              JObject
                [ ("lat", JNumber (Finite false [d4; d0; d7; d1; d2; d8] 2));
                  ("lng", JNumber (Finite true [d7; d4; d0; d0; d6] 2)) ]) ]);
      ("hobbies", JArray [JString "reading"; JString "swimming"; JString "coding"]);
      ("spouse", JNull);
      ("skills",
        JObject
          [ ("programming",
              JArray [JString "JavaScript"; JString "Python"; JString "React"]);
            ("languages", JArray [JString "English"; JString "Spanish"]) ]) ].

Definition initial_state : EditorState :=
  mkEditorState "" JNull "" {["root"]} "tree".

Definition set_jsonInput (text : string) (st : EditorState) : EditorState :=
  mkEditorState text (parsedJson st) (validationError st) (expandedPaths st) (activeTab st).

Definition setParsedJson (v : JsonValue) (st : EditorState) : EditorState :=
  mkEditorState (jsonInput st) v (validationError st) (expandedPaths st) (activeTab st).

Definition setValidationError (e : string) (st : EditorState) : EditorState :=
  mkEditorState (jsonInput st) (parsedJson st) e (expandedPaths st) (activeTab st).

Definition setExpandedPaths (paths : gset string) (st : EditorState) : EditorState :=
  mkEditorState (jsonInput st) (parsedJson st) (validationError st) paths (activeTab st).

Definition setActiveTab (tab : string) (st : EditorState) : EditorState :=
  mkEditorState (jsonInput st) (parsedJson st) (validationError st) (expandedPaths st) tab.

Definition with_state (st : EditorState) (rt : Runtime) : Runtime :=
  mkRuntime st (timeout rt) (toasts rt) (reading rt) (validated rt).

(** [setJsonInput] and the effect that depends on [jsonInput]: when the
    render that follows has a new [jsonInput], the effect's cleanup clears
    the pending timer and the effect sets one for the new text; a call with
    the text the cell already holds changes nothing and runs no effect. *)
Definition setJsonInput (text : string) (rt : Runtime) : Runtime :=
  if String.eqb text (jsonInput (state rt)) then rt
  else
    mkRuntime (set_jsonInput text (state rt)) (Some (300%nat, text))
      (toasts rt) (reading rt) (validated rt).

Definition toast (t : Toast) (rt : Runtime) : Runtime :=
  mkRuntime (state rt) (timeout rt) (t :: toasts rt) (reading rt) (validated rt).

(** The badge next to the input's title. *)
Inductive Badge := Invalid | Valid | NoBadge.

Definition badge (st : EditorState) : Badge :=
  if negb (is_empty (validationError st)) then Invalid
  else if truthy (parsedJson st) then Valid
  else NoBadge.

Section Editor.

(** The message of the [SyntaxError] that [JSON.parse] throws on a text it
    refuses; its wording is the engine's. *)
Variable diagnostic : string -> string.

Definition JSON_parse (text : string) : JsonValue + string :=
  match JSON_parse_text text with
  | Some v => inl v
  | None => inr (diagnostic text)
  end.

Definition validateAndParseJson (input : string) (st : EditorState) : EditorState :=
  if is_empty (trim input) then
    setValidationError "" (setParsedJson JNull st)
  else
    match JSON_parse input with
    | inl parsed => setValidationError "" (setParsedJson parsed st)
    | inr message => setParsedJson JNull (setValidationError message st)
    end.

(** The timer's callback. *)
Definition fire (text : string) (rt : Runtime) : Runtime :=
  mkRuntime (validateAndParseJson text (state rt)) None (toasts rt) (reading rt)
    (text :: validated rt).

(** [ms] milliseconds pass with no other event: a pending timer fires once
    its delay is over. *)
Definition elapse (ms : nat) (rt : Runtime) : Runtime :=
  match timeout rt with
  | Some (remaining, text) =>
      if (remaining <=? ms)%nat then fire text rt
      else mkRuntime (state rt) (Some ((remaining - ms)%nat, text)) (toasts rt)
             (reading rt) (validated rt)
  | None => rt
  end.

(** The first render and its effects, in order: the mount effect fills the
    buffer and the document; the debounce effect sets a timer for the empty
    text it was rendered with; in the render that the two updates cause,
    [jsonInput] has changed, so the cleanup clears that timer and the effect
    sets one for the new buffer. *)
Definition mount : Runtime :=
  let filled :=
    setParsedJson sampleJson
      (set_jsonInput (JSON_stringify sampleJson 2) initial_state) in
  let first_timer := Some (300%nat, jsonInput initial_state) in
  let second_timer :=
    if String.eqb (jsonInput filled) (jsonInput initial_state) then first_timer
    else Some (300%nat, jsonInput filled) in
  mkRuntime filled second_timer [] [] [].

Definition handleFileUpload (files : list File) (rt : Runtime) : Runtime :=
  match files with
  | [] => rt
  | file :: _ =>
      if negb (String.eqb (file_type file) "application/json")
         && negb (endsWith (file_name file) ".json")
      then
        toast (mkToast "Invalid file type" "Please upload a JSON file" "destructive") rt
      else
        mkRuntime (state rt) (timeout rt) (toasts rt) (reading rt ++ [file])
          (validated rt)
  end.

(** [reader.onload] for the file at the head of the ones being read. *)
Definition onload (rt : Runtime) : Runtime :=
  match reading rt with
  | [] => rt
  | file :: rest =>
      setJsonInput (file_content file)
        (mkRuntime (state rt) (timeout rt) (toasts rt) rest (validated rt))
  end.

Definition formatJson (rt : Runtime) : Runtime :=
  if truthy (parsedJson (state rt))
  then setJsonInput (JSON_stringify (parsedJson (state rt)) 2) rt
  else rt.

Definition minifyJson (rt : Runtime) : Runtime :=
  if truthy (parsedJson (state rt))
  then setJsonInput (JSON_stringify (parsedJson (state rt)) 0) rt
  else rt.

Definition handleNodeToggle (path : string) (st : EditorState) : EditorState :=
  let newExpandedPaths := expandedPaths st in
  let newExpandedPaths :=
    if bool_decide (path ∈ newExpandedPaths)
    then newExpandedPaths ∖ {[path]}
    else newExpandedPaths ∪ {[path]} in
  setExpandedPaths newExpandedPaths st.

(** The helper of [expandAll]. [Object.keys] lists the indices of an array
    and the own keys of an object, and [obj[key]] for a listed key is the
    value listed with it. *)
Fixpoint getAllPaths (obj : JsonValue) (currentPath : string) : list string :=
  currentPath ::
  match obj with
  | JArray items =>
      (fix each (i : nat) (items : list JsonValue) : list string :=
         match items with
         | [] => []
         | item :: rest =>
             getAllPaths item (childPath currentPath (index_key i)) ++ each (S i) rest
         end) O items
  | JObject props =>
      (fix each (props : list (string * JsonValue)) : list string :=
         match props with
         | [] => []
         | (key, item) :: rest =>
             getAllPaths item (childPath currentPath key) ++ each rest
         end) props
  | _ => []
  end.

Definition expandAll (st : EditorState) : EditorState :=
  if truthy (parsedJson st)
  then setExpandedPaths (list_to_set (getAllPaths (parsedJson st) "root")) st
  else st.

Definition collapseAll (st : EditorState) : EditorState :=
  setExpandedPaths {["root"]} st.

(** What the user does, and time passing. *)
Inductive Event :=
| Change (text : string)
| Upload (files : list File)
| Loaded
| Format
| Minify
| Toggle (path : string)
| ExpandAll
| CollapseAll
| SelectTab (tab : string)
| Elapse (ms : nat).

Definition step (rt : Runtime) (ev : Event) : Runtime :=
  match ev with
  | Change text => setJsonInput text rt
  | Upload files => handleFileUpload files rt
  | Loaded => onload rt
  | Format => formatJson rt
  | Minify => minifyJson rt
  | Toggle path => with_state (handleNodeToggle path (state rt)) rt
  | ExpandAll => with_state (expandAll (state rt)) rt
  | CollapseAll => with_state (collapseAll (state rt)) rt
  | SelectTab tab => with_state (setActiveTab tab (state rt)) rt
  | Elapse ms => elapse ms rt
  end.

Definition run (rt : Runtime) (events : list Event) : Runtime :=
  fold_left step events rt.

(** A burst of edits: the text [first] is typed, then each further text
    after the pause listed with it, and at last [wait] milliseconds pass. *)
Definition burst (first : string) (more : list (nat * string)) (wait : nat)
    : list Event :=
  Change first ::
  flat_map (fun edit => [Elapse (fst edit); Change (snd edit)]) more ++
  [Elapse wait].

End Editor.

(** Each edit of a burst changes the buffer and comes less than 300 ms
    after the one before. *)
Fixpoint rapid (current : string) (more : list (nat * string)) : Prop :=
  match more with
  | [] => True
  | (pause, text) :: more' =>
      (pause < 300)%nat /\ text ≠ current /\ rapid text more'
  end.

(** The timer is set for the buffer's text, with the full delay to run. *)
Definition armed (text : string) (rt : Runtime) : Prop :=
  timeout rt = Some (300%nat, text) /\ jsonInput (state rt) = text.

(** ** The rest of the editor *)

(** How many elements with the given class an element holds, itself
    included. The rows of the tree view are the elements of class
    [tree-item]. *)
Fixpoint count_class (wanted : string) (h : html) : nat :=
  match h with
  | Text _ => O
  | Element _ className _ _ children =>
      ((if String.eqb className wanted then 1 else 0) +
       fold_right (fun child rest => count_class wanted child + rest) O children)%nat
  end.

(** No character below the space: a text on one line, without tabs. *)
Fixpoint printable (s : string) : bool :=
  match s with
  | EmptyString => true
  | String c s' => (32 <=? nat_of_ascii c)%nat && printable s'
  end.

(** The line breaks in a text. *)
Fixpoint line_breaks (s : string) : nat :=
  match s with
  | EmptyString => O
  | String c s' => ((if Ascii.eqb c "010" then 1 else 0) + line_breaks s')%nat
  end.

(** [downloadJson]: nothing without a document; else the file the browser
    saves, with the text and the type of the [Blob] and the name given to
    the anchor's [download]. *)
Definition downloadJson (st : EditorState) : option File :=
  if truthy (parsedJson st)
  then Some (mkFile "data.json" "application/json" (JSON_stringify (parsedJson st) 2))
  else None.

(** [copyToClipboard]: [navigator.clipboard.writeText] resolves, and the
    clipboard holds the buffer, or it rejects and the clipboard is as
    before; either way one toast is shown. A toast given no [variant] has
    the empty one. The result is the clipboard's text and the runtime. *)
Definition copyToClipboard (granted : bool) (clipboard : string) (rt : Runtime)
    : string * Runtime :=
  if granted then
    (jsonInput (state rt),
     toast (mkToast "Copied to clipboard"
              "JSON content has been copied to your clipboard" "") rt)
  else
    (clipboard,
     toast (mkToast "Failed to copy" "Could not copy to clipboard" "destructive") rt).

(** [disabled={!parsedJson}], on the Format, Minify, Expand All, Collapse
    All, Copy and Download buttons. *)
Definition disabled (st : EditorState) : bool := negb (truthy (parsedJson st)).

(** The alert under the buffer: [validationError && <Alert>...]. *)
Definition alert (st : EditorState) : option string :=
  if negb (is_empty (validationError st)) then Some (validationError st) else None.

(** The output panel: the tabs with the two views of the document, of which
    [activeTab] selects the one on show, or a line of text in their place. *)
Inductive Output :=
| Views (tree : option html) (formatted : html)
| Placeholder (text : string).

Definition output (st : EditorState) : Output :=
  if truthy (parsedJson st) then
    Views (JsonViewer (parsedJson st) (expandedPaths st))
      (renderSyntaxHighlightedJson (parsedJson st) 0)
  else
    Placeholder
      (if negb (is_empty (validationError st)) then "Fix JSON errors to view data"
       else "Enter valid JSON to see the visualization").

(** The pending timer, if there is one, is for the text in the buffer and
    has at most 300 ms to run; with no timer pending, the document and the
    message are those that validation gives for the buffer. *)
Definition consistent (diagnostic : string -> string) (rt : Runtime) : Prop :=
  match timeout rt with
  | Some (remaining, text) =>
      text = jsonInput (state rt) /\ (remaining <= 300)%nat
  | None =>
      validateAndParseJson diagnostic (jsonInput (state rt)) (state rt) = state rt
  end.

(** * Properties *)

(** ** Strings and digits *)

Lemma string_app_nil_l (s : string) : "" +:+ s = s.
Proof. reflexivity. Qed.

Lemma string_app_cons c (s t : string) : String c s +:+ t = String c (s +:+ t).
Proof. reflexivity. Qed.

Lemma string_app_nil_r (s : string) : s +:+ "" = s.
Proof. induction s as [ | c s IH ]; [ reflexivity | now rewrite string_app_cons, IH ]. Qed.

Lemma string_app_assoc (s t u : string) : (s +:+ t) +:+ u = s +:+ (t +:+ u).
Proof.
  induction s as [ | c s IH ]; [ reflexivity | now rewrite !string_app_cons, IH ].
Qed.

Lemma string_app_length (s t : string) :
  String.length (s +:+ t) = (String.length s + String.length t)%nat.
Proof.
  induction s as [ | c s IH ]; [ reflexivity | rewrite string_app_cons; simpl; now rewrite IH ].
Qed.

Create Rewrite HintDb strings.
#[local] Hint Rewrite string_app_nil_l string_app_cons string_app_nil_r string_app_assoc : strings.

Lemma char_digit_digit_char d : char_digit (digit_char d) = Some d.
Proof. now destruct d. Qed.

Lemma digit_value_digit_of_N m : (m < 10)%N -> digit_value (digit_of_N m) = m.
Proof.
  intros Hm.
  assert (Hcases : (m = 0 \/ m = 1 \/ m = 2 \/ m = 3 \/ m = 4 \/ m = 5 \/
                    m = 6 \/ m = 7 \/ m = 8 \/ m = 9)%N) by lia.
  repeat (destruct Hcases as [-> | Hcases]; [ reflexivity | ]). now subst.
Qed.


Lemma digits_string_inj a b : digits_string a = digits_string b -> a = b.
Proof.
  revert b. induction a as [ | d a IH ]; intros [ | e b ] Heq; simpl in Heq;
    try discriminate; [ reflexivity | ].
  injection Heq as Hchar Hrest. f_equal; [ | now apply IH ].
  assert (Hsome : Some d = Some e)
    by now rewrite <- !char_digit_digit_char, Hchar.
  now injection Hsome.
Qed.

Lemma digits_value_snoc ds d :
  digits_value (ds ++ [d]) = (10 * digits_value ds + digit_value d)%N.
Proof. unfold digits_value. now rewrite fold_left_app. Qed.

Lemma digits_value_cons d ds :
  digits_value (d :: ds) =
  (digit_value d * 10 ^ N.of_nat (length ds) + digits_value ds)%N.
Proof.
  revert d. induction ds as [ | e ds IH ] using rev_ind; intros d.
  - simpl. unfold digits_value; simpl. lia.
  - rewrite app_comm_cons, !digits_value_snoc, IH, length_app.
    simpl length. rewrite Nat.add_1_r, Nat2N.inj_succ, N.pow_succ_r'. lia.
Qed.

Lemma digits_loop_value fuel : forall n acc,
  (n < 2 ^ N.of_nat fuel)%N ->
  digits_value (digits_loop fuel n acc) =
  (n * 10 ^ N.of_nat (length acc) + digits_value acc)%N.
Proof.
  induction fuel as [ | fuel IH ]; intros n acc Hn.
  - simpl in *. assert (n = 0%N) by lia. now subst.
  - cbn [digits_loop]. pose proof (N.mod_lt n 10 ltac:(lia)) as Hmod.
    destruct (N.ltb_spec n 10) as [Hsmall | Hbig].
    + rewrite digits_value_cons, digit_value_digit_of_N by exact Hmod.
      now rewrite N.mod_small.
    + rewrite IH.
      * rewrite digits_value_cons, digit_value_digit_of_N by exact Hmod.
        simpl length. rewrite Nat2N.inj_succ, N.pow_succ_r'.
        pose proof (N.div_mod n 10 ltac:(lia)) as Hdiv. nia.
      * rewrite Nat2N.inj_succ, N.pow_succ_r' in Hn.
        apply N.Div0.div_lt_upper_bound. lia.
Qed.

Lemma digits_of_N_value n : digits_value (digits_of_N n) = n.
Proof.
  unfold digits_of_N. rewrite digits_loop_value.
  - simpl. unfold digits_value; simpl. lia.
  - rewrite Nat2N.inj_succ, N2Nat.id.
    destruct n as [ | p ]; [ reflexivity | ].
    apply N.log2_spec. lia.
Qed.

Lemma decimal_inj n m : decimal n = decimal m -> n = m.
Proof.
  unfold decimal. intros Heq. apply digits_string_inj in Heq.
  now rewrite <- (digits_of_N_value n), Heq, digits_of_N_value.
Qed.

Lemma index_key_inj i j : index_key i = index_key j -> i = j.
Proof. unfold index_key. intros Heq. apply decimal_inj in Heq. lia. Qed.

Lemma digits_string_no_dot ds : contains_char "." (digits_string ds) = false.
Proof.
  induction ds as [ | d ds IH ]; simpl; [ reflexivity | ].
  rewrite IH. now destruct d.
Qed.

Lemma substring_whole t : String.substring 0 (String.length t) t = t.
Proof. induction t as [ | c t IH ]; simpl; [ reflexivity | now rewrite IH ]. Qed.

Lemma substring_app p t :
  String.substring (String.length p) (String.length t) (p +:+ t) = t.
Proof.
  induction p as [ | c p IH ]; [ apply substring_whole | ].
  rewrite string_app_cons. exact IH.
Qed.

Lemma substring_split s : forall a b,
  (a + b = String.length s)%nat ->
  s = String.substring 0 a s +:+ String.substring a b s.
Proof.
  induction s as [ | c s IH ]; intros a b Hlen; simpl in Hlen.
  - assert (a = O) by lia. assert (b = O) by lia. now subst.
  - destruct a as [ | a ].
    + simpl in Hlen. subst b. simpl String.substring at 1.
      rewrite string_app_nil_l. simpl. now rewrite substring_whole.
    + simpl. rewrite string_app_cons. f_equal. apply IH. lia.
Qed.

(** [endsWith] holds exactly of the strings that are something followed by
    the suffix. *)
Lemma endsWith_spec s suffix :
  endsWith s suffix = true <-> exists prefix, s = prefix +:+ suffix.
Proof.
  unfold endsWith. rewrite andb_true_iff, Nat.leb_le, String.eqb_eq. split.
  - intros [Hle Hsub]. remember (String.length suffix) as m eqn:Hm.
    exists (String.substring 0 (String.length s - m) s).
    rewrite <- Hsub. apply substring_split. lia.
  - intros [prefix ->]. rewrite string_app_length. split; [ lia | ].
    replace (String.length prefix + String.length suffix - String.length suffix)%nat
      with (String.length prefix) by lia.
    apply substring_app.
Qed.

(** ** Induction on JSON values *)

Lemma JsonValue_ind (P : JsonValue -> Prop)
  (Hnull : P JNull)
  (Hbool : forall b, P (JBool b))
  (Hnumber : forall x, P (JNumber x))
  (Hstring : forall s, P (JString s))
  (Harray : forall items, Forall P items -> P (JArray items))
  (Hobject : forall props, Forall (fun member => P (snd member)) props ->
                           P (JObject props)) :
  forall v, P v.
Proof.
  fix IH 1. intros [ | b | x | s | items | props ].
  - exact Hnull.
  - apply Hbool.
  - apply Hnumber.
  - apply Hstring.
  - apply Harray. induction items as [ | v items IHitems ]; constructor.
    + apply IH.
    + exact IHitems.
  - apply Hobject. induction props as [ | [k v] props IHprops ]; constructor.
    + apply IH.
    + exact IHprops.
Qed.

Lemma array_entries_values i items :
  map snd (array_entries i items) = items.
Proof.
  revert i. induction items as [ | v items IH ]; intros i; simpl.
  - reflexivity.
  - now rewrite IH.
Qed.

(** Induction with the hypothesis on the values [Object.entries] lists. *)
Lemma entries_ind (P : JsonValue -> Prop) :
  (forall v, Forall (fun member => P (snd member)) (entries v) -> P v) ->
  forall v, P v.
Proof.
  intros step. induction v as [ | | | | items IH | props IH ] using JsonValue_ind;
    apply step; simpl; try constructor.
  - apply Forall_map. now rewrite array_entries_values.
  - exact IH.
Qed.

(** ** The tree and its paths *)

Lemma createNode_children expanded k v p :
  children (createNode expanded k v p) =
  if is_container (typeOf v) then Some (createNodes expanded p (entries v)) else None.
Proof.
  destruct v as [ | | | | items | props ]; simpl; try reflexivity; f_equal.
  - generalize O. induction items as [ | v items IH ]; intros i; simpl.
    + reflexivity.
    + now rewrite IH.
  - induction props as [ | [k' v] props IH ]; simpl.
    + reflexivity.
    + now rewrite IH.
Qed.

Lemma createNode_path expanded k v p : path (createNode expanded k v p) = p.
Proof. now destruct v. Qed.

Lemma createNode_type expanded k v p : type (createNode expanded k v p) = typeOf v.
Proof. now destruct v. Qed.

Lemma createNode_isExpanded expanded k v p :
  isExpanded (createNode expanded k v p) = bool_decide (p ∈ expanded).
Proof. now destruct v. Qed.

Lemma getAllPaths_entries v p :
  getAllPaths v p =
  p :: flat_map (fun member => getAllPaths (snd member) (childPath p (fst member)))
         (entries v).
Proof.
  destruct v as [ | | | | items | props ]; simpl; try reflexivity; f_equal.
  - generalize O. induction items as [ | v items IH ]; intros i; simpl.
    + reflexivity.
    + now rewrite IH.
  - induction props as [ | [k' v] props IH ]; simpl.
    + reflexivity.
    + now rewrite IH.
Qed.

Lemma node_paths_unfold node :
  node_paths node =
  path node :: match children node with
               | Some kids => flat_map node_paths kids
               | None => []
               end.
Proof. now destruct node. Qed.

Lemma node_paths_createNode expanded k v p :
  node_paths (createNode expanded k v p) =
  p :: flat_map (fun member =>
                   node_paths (createNode expanded (fst member) (snd member)
                                 (childPath p (fst member))))
         (entries v).
Proof.
  rewrite node_paths_unfold, createNode_path, createNode_children. f_equal.
  destruct v; simpl; try reflexivity; unfold createNodes;
    now rewrite flat_map_concat_map, map_map, <- flat_map_concat_map.
Qed.

(** [getAllPaths] walks the value as [createNode] builds the tree. *)
Lemma getAllPaths_node_paths expanded v :
  forall k p, getAllPaths v p = node_paths (createNode expanded k v p).
Proof.
  induction v as [v IH] using entries_ind. intros k p.
  rewrite getAllPaths_entries, node_paths_createNode. f_equal.
  induction IH as [ | member members Hmember _ IHmembers ]; simpl.
  - reflexivity.
  - now rewrite IHmembers, (Hmember (fst member)).
Qed.

(** ** Expand state *)

Ltac membership :=
  repeat (rewrite elem_of_union || rewrite elem_of_difference
          || rewrite elem_of_singleton);
  intuition congruence.

(** C7. One toggle of a path flips its membership in the expand state and
    leaves every other path as it was; a second toggle of the same path
    gives back the state before the first. *)
Theorem handleNodeToggle_twice (p : string) (st : EditorState) :
  (p ∈ expandedPaths (handleNodeToggle p st) <-> p ∉ expandedPaths st) /\
  (forall q, q ≠ p ->
     q ∈ expandedPaths (handleNodeToggle p st) <-> q ∈ expandedPaths st) /\
  (p ∈ expandedPaths (handleNodeToggle p (handleNodeToggle p st))
     <-> p ∈ expandedPaths st) /\
  handleNodeToggle p (handleNodeToggle p st) = st.
Proof.
  destruct st as [input parsed err paths tab].
  unfold handleNodeToggle, setExpandedPaths; simpl.
  destruct (bool_decide_reflect (p ∈ paths)) as [Hin | Hout]; simpl.
  - assert (Hgone : p ∉ paths ∖ {[p]}) by membership.
    rewrite (bool_decide_eq_false_2 _ Hgone).
    split; [ membership | split; [ intros q Hq; membership | split; [ membership | ] ] ].
    f_equal. apply set_eq. intros q.
    destruct (decide (q = p)) as [-> | Hne]; membership.
  - assert (Hthere : p ∈ paths ∪ {[p]}) by membership.
    rewrite (bool_decide_eq_true_2 _ Hthere).
    split; [ membership | split; [ intros q Hq; membership | split; [ membership | ] ] ].
    f_equal. apply set_eq. intros q.
    destruct (decide (q = p)) as [-> | Hne]; membership.
Qed.

(** C4. Collapse-all leaves exactly the root path in the expand state,
    whatever it was before, in particular after expand-all; and expand-all,
    when there is a document, replaces the expand state by the set of the
    paths of all nodes of the document's tree, which [getAllPaths] lists
    parents first. *)
Theorem collapseAll_leaves_root (st : EditorState) :
  expandedPaths (collapseAll st) = {["root"]} /\
  expandedPaths (collapseAll (expandAll st)) = {["root"]} /\
  getAllPaths (parsedJson st) "root" =
    node_paths (createNode (expandedPaths st) "root" (parsedJson st) "root") /\
  expandedPaths (expandAll st) =
    (if truthy (parsedJson st)
     then list_to_set
            (node_paths (createNode (expandedPaths st) "root" (parsedJson st) "root"))
     else expandedPaths st).
Proof.
  repeat split; try reflexivity.
  - apply getAllPaths_node_paths.
  - unfold expandAll. destruct (truthy (parsedJson st)); simpl.
    + now rewrite (getAllPaths_node_paths (expandedPaths st) _ "root").
    + reflexivity.
Qed.

(** ** Validation *)

Lemma trim_start_whitespace s :
  whitespace_only s = true -> trim_start s = "".
Proof.
  induction s as [ | c s IH ]; simpl; [ easy | ].
  destruct (is_trim_space c); simpl; [ exact IH | discriminate ].
Qed.

Lemma trim_end_empty s :
  is_empty (trim_end s) = whitespace_only s.
Proof.
  induction s as [ | c s IH ]; simpl; [ reflexivity | ].
  destruct (trim_end s); simpl in *; rewrite <- IH.
  - now destruct (is_trim_space c).
  - now rewrite andb_false_r.
Qed.

Lemma whitespace_only_trim_start s :
  whitespace_only (trim_start s) = whitespace_only s.
Proof.
  induction s as [ | c s IH ]; simpl; [ reflexivity | ].
  destruct (is_trim_space c) eqn:Hc; simpl; [ exact IH | now rewrite Hc ].
Qed.

(** [!input.trim()] holds exactly for the texts made of white space only. *)
Lemma trim_empty s : is_empty (trim s) = whitespace_only s.
Proof. unfold trim. now rewrite trim_end_empty, whitespace_only_trim_start. Qed.

(** C3. Validation of a text touches only the document and the error
    message. A text that is empty or white space only gives the neutral
    state: no document, no message, and no badge (so not the Invalid one).
    For any other text, a parse failure stores the parser's message and
    clears the document, and a parse success stores the parsed value and
    clears the message. *)
Theorem validateAndParseJson_outcomes (diagnostic : string -> string)
    (input : string) (st : EditorState) :
  let st' := validateAndParseJson diagnostic input st in
  (jsonInput st' = jsonInput st /\ expandedPaths st' = expandedPaths st /\
   activeTab st' = activeTab st) /\
  if whitespace_only input then
    parsedJson st' = JNull /\ validationError st' = "" /\ badge st' = NoBadge
  else
    match JSON_parse diagnostic input with
    | inr message => validationError st' = message /\ parsedJson st' = JNull
    | inl parsed => parsedJson st' = parsed /\ validationError st' = ""
    end.
Proof.
  unfold validateAndParseJson. rewrite trim_empty.
  destruct (whitespace_only input).
  - now repeat split.
  - destruct (JSON_parse diagnostic input); now repeat split.
Qed.

(** ** Upload *)

(** C9. A file whose type is not application/json and whose name does not
    end in .json is refused: one toast is shown, no read is started, and the
    buffer, the rest of the state and the pending timer are as before. *)
Theorem handleFileUpload_rejects (file : File) (others : list File) (rt : Runtime) :
  file_type file ≠ "application/json" ->
  endsWith (file_name file) ".json" = false ->
  let rt' := handleFileUpload (file :: others) rt in
  state rt' = state rt /\
  timeout rt' = timeout rt /\
  reading rt' = reading rt /\
  validated rt' = validated rt /\
  toasts rt' =
    mkToast "Invalid file type" "Please upload a JSON file" "destructive" :: toasts rt.
Proof.
  intros Htype Hname. simpl. rewrite Hname.
  apply String.eqb_neq in Htype. rewrite Htype. simpl. now repeat split.
Qed.

Lemma handleFileUpload_rejects_notes :
  let file := mkFile "notes.txt" "text/plain" "remember the milk" in
  let rt := mkRuntime (set_jsonInput "[1]" initial_state) None [] [] [] in
  jsonInput (state (handleFileUpload [file] rt)) = "[1]" /\
  reading (handleFileUpload [file] rt) = [].
Proof.
  intros file rt.
  destruct (handleFileUpload_rejects file [] rt) as (Hstate & _ & Hreading & _).
  - discriminate.
  - reflexivity.
  - now rewrite Hstate, Hreading.
Defined.

(** ** Mount *)

Lemma sample_parses_back :
  JSON_parse_text (JSON_stringify sampleJson 2) = Some sampleJson.
Proof. vm_compute. reflexivity. Qed.

(** C10. Once the component is mounted, and before any input, the buffer
    holds the sample document printed with two-space indent and the document
    is the sample itself, with no message and no validation pass run: the
    badge is the Valid one and the buffer is not blank. The timer that is
    pending then validates that same buffer and leaves the state as it is. *)
Theorem mount_shows_sample :
  jsonInput (state mount) = JSON_stringify sampleJson 2 /\
  parsedJson (state mount) = sampleJson /\
  validationError (state mount) = "" /\
  validated mount = [] /\
  badge (state mount) = Valid /\
  whitespace_only (jsonInput (state mount)) = false /\
  timeout mount = Some (300%nat, JSON_stringify sampleJson 2) /\
  (forall diagnostic, state (elapse diagnostic 300 mount) = state mount).
Proof.
  split; [ reflexivity | ]. split; [ reflexivity | ]. split; [ reflexivity | ].
  split; [ reflexivity | ]. split; [ reflexivity | ]. split; [ reflexivity | ].
  split; [ reflexivity | ].
  intros diagnostic. unfold elapse, fire, mount; simpl.
  unfold validateAndParseJson, JSON_parse.
  rewrite trim_empty, sample_parses_back. reflexivity.
Qed.

(** ** Debounce *)

Section Debounce.

Variable diagnostic : string -> string.

Lemma setJsonInput_arms text rt :
  text ≠ jsonInput (state rt) ->
  let rt' := setJsonInput text rt in
  armed text rt' /\ validated rt' = validated rt /\
  state rt' = set_jsonInput text (state rt).
Proof.
  intros Hnew. unfold setJsonInput.
  apply String.eqb_neq in Hnew. rewrite Hnew. now repeat split.
Qed.

Lemma elapse_short text pause rt :
  armed text rt -> (pause < 300)%nat ->
  let rt' := elapse diagnostic pause rt in
  timeout rt' = Some ((300 - pause)%nat, text) /\ state rt' = state rt /\
  validated rt' = validated rt.
Proof.
  intros [Htimer _] Hpause. unfold elapse. rewrite Htimer.
  destruct (Nat.leb_spec 300 pause); [ lia | now repeat split ].
Qed.

Lemma edit_rearms text pause text' rt :
  armed text rt -> (pause < 300)%nat -> text' ≠ text ->
  let rt' := setJsonInput text' (elapse diagnostic pause rt) in
  armed text' rt' /\ validated rt' = validated rt /\
  state rt' = set_jsonInput text' (state rt).
Proof.
  intros Harmed Hpause Hnew.
  destruct (elapse_short text pause rt Harmed Hpause) as (_ & Hstate & Hvalidated).
  destruct (setJsonInput_arms text' (elapse diagnostic pause rt)) as (Ha & Hv & Hs).
  - rewrite Hstate. destruct Harmed as [_ ->]. exact Hnew.
  - simpl. now rewrite Hv, Hs, Hstate, Hvalidated.
Qed.

Lemma set_jsonInput_twice a b st :
  set_jsonInput b (set_jsonInput a st) = set_jsonInput b st.
Proof. reflexivity. Qed.

Lemma burst_rearms more : forall text rt,
  armed text rt -> rapid text more ->
  let rt' :=
    run diagnostic rt
      (flat_map (fun edit => [Elapse (fst edit); Change (snd edit)]) more) in
  let final := List.last (map snd more) text in
  armed final rt' /\ validated rt' = validated rt /\
  state rt' = set_jsonInput final (state rt).
Proof.
  induction more as [ | [pause text'] more IH ]; intros text rt Harmed Hrapid.
  - simpl. repeat split; try apply Harmed.
    destruct Harmed as [_ <-]. now destruct rt as [[] ? ? ? ?].
  - destruct Hrapid as (Hpause & Hnew & Hrapid).
    destruct (edit_rearms text pause text' rt Harmed Hpause Hnew) as (Ha & Hv & Hs).
    specialize (IH text' _ Ha Hrapid). simpl in IH.
    destruct IH as (IHa & IHv & IHs).
    assert (Hlast : List.last (map snd ((pause, text') :: more)) text
                    = List.last (map snd more) text').
    { simpl. destruct (map snd more) as [ | t ts ] eqn:Hmore; [ reflexivity | ].
      clear. revert t. induction ts as [ | t' ts IHts ]; intros t; simpl.
      - reflexivity.
      - apply (IHts t'). }
    cbv zeta. rewrite Hlast. simpl.
    repeat split; try apply IHa.
    + now rewrite IHv, Hv.
    + now rewrite IHs, Hs.
Qed.

(** C8. In a burst of edits, each changing the buffer and each less than
    300 ms after the one before, no validation runs between the edits; the
    buffer ends as the last text typed; and once the burst is over there is
    no validation pass before 300 ms have gone by and exactly one after,
    which is on that last text and leaves no timer pending. *)
Theorem burst_validates_once (first : string) (more : list (nat * string))
    (wait : nat) (rt : Runtime) :
  first ≠ jsonInput (state rt) ->
  rapid first more ->
  let rt' := run diagnostic rt (burst first more wait) in
  let final := List.last (map snd more) first in
  jsonInput (state rt') = final /\
  validated rt' = (if (300 <=? wait)%nat then [final] else []) ++ validated rt /\
  ((300 <= wait)%nat ->
   timeout rt' = None /\
   state rt' = validateAndParseJson diagnostic final (set_jsonInput final (state rt))).
Proof.
  intros Hfirst Hrapid. cbv zeta. unfold burst, run.
  cbn [fold_left step]. rewrite fold_left_app. cbn [fold_left step].
  destruct (setJsonInput_arms first rt Hfirst) as (Ha & Hv & Hs).
  destruct (burst_rearms more first _ Ha Hrapid) as ((Htimer & Hinput) & Hv' & Hs').
  unfold run in Htimer, Hinput, Hv', Hs'.
  set (edited := fold_left (step diagnostic) _ (setJsonInput first rt)) in *.
  rewrite Hs, set_jsonInput_twice in Hs'.
  unfold elapse. rewrite Htimer.
  destruct (Nat.leb_spec 300 wait) as [Hlong | Hshort]; cbn [fire state validated timeout].
  - split; [ | split; [ | intros _; split ] ].
    + unfold validateAndParseJson.
      destruct (is_empty _); [ exact Hinput | ].
      destruct (JSON_parse _ _); exact Hinput.
    + now rewrite Hv', Hv.
    + reflexivity.
    + now rewrite Hs'.
  - split; [ exact Hinput | split; [ now rewrite Hv', Hv | lia ] ].
Qed.

End Debounce.

Lemma burst_validates_once_typing :
  let rt := mkRuntime initial_state None [] [] [] in
  validated
    (run (fun _ => "Unexpected end of JSON input") rt
       (burst "[" [(120%nat, "[1"); (80%nat, "[1]")] 300)) = ["[1]"].
Proof.
  intros rt.
  destruct (burst_validates_once (fun _ => "Unexpected end of JSON input")
              "[" [(120%nat, "[1"); (80%nat, "[1]")] 300 rt) as (_ & Hvalidated & _).
  - discriminate.
  - simpl. repeat split; (lia || discriminate).
  - exact Hvalidated.
Defined.

(** ** Paths and positions *)

Lemma node_at_cons node i rest :
  node_at node (i :: rest) =
  match children node with
  | Some kids =>
      match nth_error kids i with
      | Some kid => node_at kid rest
      | None => None
      end
  | None => None
  end.
Proof.
  simpl. destruct (children node) as [kids | ]; [ | reflexivity ].
  revert i. induction kids as [ | kid kids IH ]; intros [ | i ]; simpl;
    try reflexivity.
  apply IH.
Qed.

Lemma node_at_app node p : forall q,
  node_at node (p ++ q) =
  match node_at node p with
  | Some n => node_at n q
  | None => None
  end.
Proof.
  revert node. induction p as [ | i p IH ]; intros node q.
  - reflexivity.
  - rewrite <- app_comm_cons, !node_at_cons.
    destruct (children node) as [kids | ]; [ | reflexivity ].
    destruct (nth_error kids i) as [kid | ]; [ apply IH | reflexivity ].
Qed.

Lemma createNode_key expanded k v p : key (createNode expanded k v p) = k.
Proof. now destruct v. Qed.

(** Every node of a tree is built by [createNode], at the path joined from
    the keys that lead to it. *)
Lemma node_at_createNode position : forall expanded k v p n,
  node_at (createNode expanded k v p) position = Some n ->
  exists ks k' v',
    keys_at v position = Some ks /\ n = createNode expanded k' v' (join p ks).
Proof.
  induction position as [ | i rest IH ]; intros expanded k v p n Hat.
  - exists [], k, v. simpl in Hat. now injection Hat as <-.
  - rewrite node_at_cons, createNode_children in Hat.
    destruct (is_container (typeOf v)); [ | discriminate ].
    unfold createNodes in Hat. rewrite nth_error_map in Hat. simpl.
    destruct (nth_error (entries v) i) as [[k1 v1] | ]; [ | discriminate ].
    simpl in Hat. apply IH in Hat as (ks & k' & v' & Hkeys & Hnode).
    exists (k1 :: ks), k', v'. rewrite Hkeys. now split.
Qed.

Lemma child_path expanded k v p position i parent child :
  node_at (createNode expanded k v p) position = Some parent ->
  node_at (createNode expanded k v p) (position ++ [i]) = Some child ->
  path child = childPath (path parent) (key child).
Proof.
  intros Hparent Hchild. rewrite node_at_app, Hparent in Hchild.
  apply node_at_createNode in Hparent as (ks & k' & v' & _ & ->).
  rewrite node_at_cons, createNode_children in Hchild.
  destruct (is_container (typeOf v')); [ | discriminate ].
  unfold createNodes in Hchild. rewrite nth_error_map in Hchild.
  destruct (nth_error (entries v') i) as [[k1 v1] | ]; [ | discriminate ].
  simpl in Hchild. injection Hchild as <-.
  now rewrite !createNode_path, createNode_key.
Qed.

Lemma object_keys_entries ok v :
  object_keys ok v = true ->
  Forall (fun member => object_keys ok (snd member) = true) (entries v).
Proof.
  destruct v as [ | | | | items | props ]; simpl; try constructor.
  - intros Hitems.
    apply (proj1 (List.Forall_map snd (fun item => object_keys ok item = true) _)).
    rewrite array_entries_values.
    apply Forall_forall. intros item Hin. rewrite forallb_forall in Hitems.
    apply Hitems. now apply list_elem_of_In.
  - intros [_ Hprops]%andb_true_iff. apply Forall_forall. intros member Hin.
    rewrite forallb_forall in Hprops. apply Hprops. now apply list_elem_of_In.
Qed.

Lemma array_entries_keys i items :
  map fst (array_entries i items) = map index_key (seq i (length items)).
Proof.
  revert i. induction items as [ | v items IH ]; intros i; simpl.
  - reflexivity.
  - now rewrite IH.
Qed.

Lemma distinct_NoDup ks : distinct ks = true -> List.NoDup ks.
Proof.
  induction ks as [ | k ks IH ]; simpl; [ constructor | ].
  intros [Hfresh Hrest]%andb_true_iff. constructor; [ | now apply IH ].
  intros Hin. apply negb_true_iff in Hfresh.
  assert (Hex : existsb (String.eqb k) ks = true).
  { apply existsb_exists. exists k. split; [ exact Hin | apply String.eqb_refl ]. }
  congruence.
Qed.

(** Sibling keys are distinct: by the object invariant, and for an array
    because the indices print differently. *)
Lemma entries_keys_NoDup v :
  distinct_keys v = true -> List.NoDup (map fst (entries v)).
Proof.
  destruct v as [ | | | | items | props ]; simpl; try constructor.
  - intros _. rewrite array_entries_keys.
    apply Stdlib.Lists.Finite.Injective_map_NoDup.
    + intros i j. apply index_key_inj.
    + apply NoDup_ListNoDup, NoDup_seq.
  - intros [Hkeys _]%andb_true_iff. now apply distinct_NoDup.
Qed.

Lemma keys_at_inj p : forall v q ks,
  distinct_keys v = true ->
  keys_at v p = Some ks -> keys_at v q = Some ks -> p = q.
Proof.
  induction p as [ | i p IH ]; intros v [ | j q ] ks Hdistinct Hp Hq; simpl in *.
  - reflexivity.
  - injection Hp as <-.
    destruct (nth_error (entries v) j) as [[k v'] | ]; [ | discriminate ].
    destruct (keys_at v' q); discriminate.
  - injection Hq as <-.
    destruct (nth_error (entries v) i) as [[k v'] | ]; [ | discriminate ].
    destruct (keys_at v' p); discriminate.
  - destruct (nth_error (entries v) i) as [[k1 v1] | ] eqn:Hi; [ | discriminate ].
    destruct (nth_error (entries v) j) as [[k2 v2] | ] eqn:Hj; [ | discriminate ].
    destruct (keys_at v1 p) as [ks1 | ] eqn:Hp1; [ | discriminate ].
    destruct (keys_at v2 q) as [ks2 | ] eqn:Hq2; [ | discriminate ].
    simpl in Hp, Hq. injection Hp as <-. injection Hq as Hk Hks. subst k2 ks2.
    assert (Hij : i = j).
    { pose proof (entries_keys_NoDup v Hdistinct) as Hnodup.
      rewrite List.NoDup_nth_error in Hnodup. apply Hnodup.
      - apply nth_error_Some. rewrite nth_error_map, Hi. discriminate.
      - now rewrite !nth_error_map, Hi, Hj. }
    subst j. rewrite Hi in Hj. injection Hj as <-.
    f_equal. apply (IH v1 q ks1); try assumption.
    pose proof (object_keys_entries _ _ Hdistinct) as Hall.
    rewrite Forall_forall in Hall.
    apply (Hall (k1, v1)). apply list_elem_of_In. eapply nth_error_In, Hi.
Qed.

Lemma entries_keys_dot_free v :
  dot_free_keys v = true -> forallb dot_free (map fst (entries v)) = true.
Proof.
  destruct v as [ | | | | items | props ]; simpl; try reflexivity.
  - intros _. rewrite array_entries_keys. apply forallb_forall.
    intros k (i & <- & _)%in_map_iff.
    unfold dot_free, index_key, decimal. now rewrite digits_string_no_dot.
  - now intros [Hkeys _]%andb_true_iff.
Qed.

Lemma keys_at_dot_free p : forall v ks,
  dot_free_keys v = true -> keys_at v p = Some ks -> forallb dot_free ks = true.
Proof.
  induction p as [ | i p IH ]; intros v ks Hfree Hp; simpl in *.
  - now injection Hp as <-.
  - destruct (nth_error (entries v) i) as [[k v'] | ] eqn:Hi; [ | discriminate ].
    destruct (keys_at v' p) as [ks' | ] eqn:Hp'; [ | discriminate ].
    injection Hp as <-. simpl. apply andb_true_iff. split.
    + pose proof (entries_keys_dot_free v Hfree) as Hall.
      rewrite forallb_forall in Hall. apply Hall.
      apply in_map_iff. exists (k, v'). split; [ reflexivity | ].
      eapply nth_error_In, Hi.
    + apply (IH v'); [ | exact Hp' ].
      pose proof (object_keys_entries _ _ Hfree) as Hall.
      rewrite Forall_forall in Hall.
      apply (Hall (k, v')). apply list_elem_of_In. eapply nth_error_In, Hi.
Qed.

Lemma join_suffix ks : forall p, join p ks = p +:+ suffix ks.
Proof.
  induction ks as [ | k ks IH ]; intros p; simpl.
  - now rewrite string_app_nil_r.
  - unfold join in *. simpl. rewrite IH. unfold childPath.
    now rewrite !string_app_assoc.
Qed.

(** A segment ends where the next separator stands. *)
Lemma segment_inj k : forall k' ks ks',
  dot_free k = true -> dot_free k' = true ->
  k +:+ suffix ks = k' +:+ suffix ks' -> k = k' /\ suffix ks = suffix ks'.
Proof.
  unfold dot_free.
  induction k as [ | c k IH ]; intros [ | c' k' ] ks ks' Hk Hk' Heq.
  - now split.
  - rewrite string_app_nil_l, string_app_cons in Heq. destruct ks as [ | k0 ks ]; simpl in Heq.
    + discriminate.
    + rewrite string_app_cons in Heq. injection Heq as <- _. simpl in Hk'. discriminate.
  - rewrite string_app_nil_l, string_app_cons in Heq. destruct ks' as [ | k0 ks' ]; simpl in Heq.
    + discriminate.
    + rewrite string_app_cons in Heq. injection Heq as -> _. simpl in Hk. discriminate.
  - rewrite !string_app_cons in Heq. injection Heq as <- Heq.
    simpl in Hk, Hk'. apply negb_true_iff, orb_false_iff in Hk as [_ Hk].
    apply negb_true_iff, orb_false_iff in Hk' as [_ Hk'].
    destruct (IH k' ks ks') as [-> Hrest]; try (now apply negb_true_iff).
    + exact Heq.
    + now split.
Qed.

Lemma suffix_inj ks : forall ks',
  forallb dot_free ks = true -> forallb dot_free ks' = true ->
  suffix ks = suffix ks' -> ks = ks'.
Proof.
  induction ks as [ | k ks IH ]; intros [ | k' ks' ] Hks Hks' Heq; simpl in *;
    try reflexivity; try discriminate.
  apply andb_true_iff in Hks as [Hk Hks]. apply andb_true_iff in Hks' as [Hk' Hks'].
  rewrite !string_app_cons, !string_app_nil_l in Heq. injection Heq as Heq.
  apply segment_inj in Heq as [-> Hrest]; try assumption.
  f_equal. now apply IH.
Qed.

(** C2, amended. Two nodes at the same position of trees built from the
    same value, under any two expand states, have the same path, and the
    path of a child is its parent's path, a dot, and the child's key. In a
    document whose object keys contain no dot (and, as in every JavaScript
    object, are distinct within one object), nodes with the same path are at
    the same position: paths are unique. *)
Theorem paths_identify_positions (expanded1 expanded2 : gset string)
    (v : JsonValue) (p q : list nat) (n1 n2 : JsonNode) :
  node_at (createNode expanded1 "root" v "root") p = Some n1 ->
  node_at (createNode expanded2 "root" v "root") q = Some n2 ->
  (p = q -> path n1 = path n2) /\
  (forall i child,
     node_at (createNode expanded1 "root" v "root") (p ++ [i]) = Some child ->
     path child = path n1 +:+ "." +:+ key child) /\
  (distinct_keys v = true -> dot_free_keys v = true ->
   path n1 = path n2 -> p = q).
Proof.
  intros Hp Hq. split; [ | split ].
  - apply node_at_createNode in Hp as (ks1 & k1 & v1 & Hks1 & ->).
    apply node_at_createNode in Hq as (ks2 & k2 & v2 & Hks2 & ->).
    intros <-. rewrite !createNode_path. congruence.
  - intros i child Hchild. exact (child_path _ _ _ _ _ _ _ _ Hp Hchild).
  - intros Hdistinct Hfree.
    apply node_at_createNode in Hp as (ks1 & k1 & v1 & Hks1 & ->).
    apply node_at_createNode in Hq as (ks2 & k2 & v2 & Hks2 & ->).
    rewrite !createNode_path, !join_suffix. intros Heq.
    apply String.app_inj in Heq.
    apply suffix_inj in Heq; try (eapply keys_at_dot_free; eassumption).
    subst ks2. eapply keys_at_inj; eassumption.
Qed.

Lemma paths_identify_positions_siblings :
  let v := JObject [("a", JArray [JNull; JBool true])] in
  let first := createNode ∅ "0" JNull "root.a.0" in
  let second := createNode {["root"]} "1" (JBool true) "root.a.1" in
  node_at (createNode ∅ "root" v "root") [0; 0]%nat = Some first /\
  node_at (createNode {["root"]} "root" v "root") [0; 1]%nat = Some second /\
  (path first = path second -> [0; 0]%nat = [0; 1]%nat).
Proof.
  intros v first second.
  split; [ reflexivity | split; [ reflexivity | ] ].
  apply (paths_identify_positions ∅ {["root"]} v [0; 0]%nat [0; 1]%nat first second);
    reflexivity.
Defined.

(** C2 as stated fails: a key with a dot in it makes the path of a child
    equal to the path of a grandchild. *)
Lemma paths_collide_on_dotted_key :
  let v := JObject [("a", JObject [("b", JNull)]); ("a.b", JNull)] in
  let tree := createNode {["root"]} "root" v "root" in
  distinct_keys v = true /\
  option_map path (node_at tree [0; 0]%nat) = Some "root.a.b" /\
  option_map path (node_at tree [1]%nat) = Some "root.a.b" /\
  [0; 0]%nat ≠ [1]%nat.
Proof. repeat split. discriminate. Qed.

(** ** Empty containers in the tree view *)

(** C6, amended. A container node without children is drawn as one row with
    no expand button and no click action, whether or not its path is in the
    expand state; when the path is not in the expand state the row reads
    key, colon, opening bracket, the summary [0 items] (or [0 keys]) and the
    closing bracket. *)
Theorem empty_container_row (node : JsonNode) (depth : nat) :
  is_container (type node) = true ->
  hasChildren node = false ->
  count_tag "button" (renderNode node depth) = O /\
  click_targets (renderNode node depth) = [] /\
  (exists row, renderNode node depth = Element "div" "tree-item" None None [row]) /\
  (isExpanded node = false ->
   innerText (renderNode node depth) =
   key node +:+ ":" +:+
   (if is_array (type node) then "[0 items]" else "{0 keys}")).
Proof.
  intros Hcontainer Hempty.
  assert (Hcount : children_count node = O).
  { unfold hasChildren in Hempty. unfold children_count.
    destruct (children node) as [[ | kid kids] | ]; [ reflexivity | discriminate | reflexivity ]. }
  destruct node as [k v t p expandedHere kids]; simpl in *.
  rewrite Hempty, Hcontainer, Hcount. simpl.
  split; [ | split; [ | split ] ].
  - now destruct expandedHere.
  - now destruct expandedHere.
  - eexists. reflexivity.
  - intros ->. simpl. autorewrite with strings.
    now destruct (is_array t).
Qed.

Lemma empty_container_row_array :
  innerText (renderNode (createNode {["root"]} "a" (JArray []) "root.a") 1)
  = "a:[0 items]".
Proof.
  apply (empty_container_row (createNode {["root"]} "a" (JArray []) "root.a") 1);
    reflexivity.
Defined.

(** C6 as stated fails: the brackets of an empty array have the summary
    between them while its path is not in the expand state, and after
    expand-all the closing bracket is not drawn. *)
Lemma empty_array_brackets_not_adjacent :
  let v := JObject [("a", JArray [])] in
  let st := setParsedJson v initial_state in
  option_map innerText (JsonViewer (parsedJson st) (expandedPaths st))
    = Some "a:[0 items]" /\
  option_map innerText
    (JsonViewer (parsedJson (expandAll st)) (expandedPaths (expandAll st)))
    = Some "a:[".
Proof. split; vm_compute; reflexivity. Qed.

(** ** The formatted view and [JSON.stringify] *)

Lemma render_array item items depth :
  renderSyntaxHighlightedJson (JArray (item :: items)) depth =
  span ""
    (span "json-bracket" [Text "["] :: array_rows depth (item :: items)
     ++ [br; Text (repeat_string "  " depth); span "json-bracket" [Text "]"]]).
Proof.
  simpl. unfold span. do 3 f_equal.
  induction items as [ | item' items IH ]; simpl; [ reflexivity | ].
  unfold span. now rewrite IH.
Qed.

Lemma render_object member props depth :
  renderSyntaxHighlightedJson (JObject (member :: props)) depth =
  span ""
    (span "json-brace" [Text "{"] :: object_rows depth (member :: props)
     ++ [br; Text (repeat_string "  " depth); span "json-brace" [Text "}"]]).
Proof.
  destruct member as [k item]. simpl. unfold span. do 3 f_equal.
  induction props as [ | [k' item'] props IH ]; simpl; [ reflexivity | ].
  unfold span. now rewrite IH.
Qed.

Lemma serialize_array gap indent items :
  SerializeJSONProperty gap indent (JArray items) =
  let partial := array_partial gap (indent +:+ gap) items in
  if nonempty partial then
    if is_empty gap then "[" +:+ String.concat "," partial +:+ "]"
    else
      "[" +:+ newline +:+ (indent +:+ gap) +:+
      String.concat ("," +:+ newline +:+ (indent +:+ gap)) partial +:+
      newline +:+ indent +:+ "]"
  else "[]".
Proof.
  simpl. unfold array_partial.
  replace ((fix each (items0 : list JsonValue) : list string :=
              match items0 with
              | [] => []
              | item :: rest =>
                  SerializeJSONProperty gap (indent +:+ gap) item :: each rest
              end) items)
    with (map (SerializeJSONProperty gap (indent +:+ gap)) items); [ reflexivity | ].
  induction items as [ | item items IH ]; simpl; [ reflexivity | now rewrite IH ].
Qed.

Lemma serialize_object gap indent props :
  SerializeJSONProperty gap indent (JObject props) =
  let partial := object_partial gap (indent +:+ gap) props in
  if nonempty partial then
    if is_empty gap then "{" +:+ String.concat "," partial +:+ "}"
    else
      "{" +:+ newline +:+ (indent +:+ gap) +:+
      String.concat ("," +:+ newline +:+ (indent +:+ gap)) partial +:+
      newline +:+ indent +:+ "}"
  else "{}".
Proof.
  simpl. unfold object_partial.
  replace ((fix each (props0 : list (string * JsonValue)) : list string :=
              match props0 with
              | [] => []
              | (P, item) :: rest =>
                  (QuoteJSONString P +:+ ":" +:+
                   (if is_empty gap then "" else " ") +:+
                   SerializeJSONProperty gap (indent +:+ gap) item) :: each rest
              end) props)
    with (map (fun member : string * JsonValue =>
                 QuoteJSONString (fst member) +:+ ":" +:+
                 (if is_empty gap then "" else " ") +:+
                 SerializeJSONProperty gap (indent +:+ gap) (snd member)) props);
    [ reflexivity | ].
  induction props as [ | [P item] props IH ]; simpl; [ reflexivity | now rewrite IH ].
Qed.




Lemma repeat_string_snoc s count :
  repeat_string s count +:+ s = repeat_string s (S count).
Proof.
  induction count as [ | count IH ]; simpl.
  - now rewrite string_app_nil_r.
  - now rewrite string_app_assoc, IH.
Qed.


Lemma concat_cons2 sep (x y : string) rest :
  String.concat sep (x :: y :: rest) = x +:+ sep +:+ String.concat sep (y :: rest).
Proof. reflexivity. Qed.

Section FormattedView.

Variable depth : nat.

Let indent := repeat_string "  " depth.



End FormattedView.





(** ** Numbers: [JSON.parse] reads what [Number::toString] prints *)




Lemma strip_trailing_zeros_repeat count :
  strip_trailing_zeros (repeat d0 count) = [].
Proof.
  induction count as [ | count IH ]; simpl; [ reflexivity | now rewrite IH ].
Qed.

Lemma strip_trailing_zeros_app ds : forall count,
  last_nonzero ds = true ->
  strip_trailing_zeros (ds ++ repeat d0 count) = ds.
Proof.
  induction ds as [ | d ds IH ]; intros count Hlast; [ discriminate | ].
  rewrite <- app_comm_cons. cbn [strip_trailing_zeros].
  destruct ds as [ | d' ds ].
  - rewrite app_nil_l, strip_trailing_zeros_repeat.
    simpl in Hlast. now destruct (digit_is_zero d).
  - rewrite IH by exact Hlast. reflexivity.
Qed.

Lemma strip_trailing_zeros_id ds :
  last_nonzero ds = true -> strip_trailing_zeros ds = ds.
Proof.
  intros Hlast. pose proof (strip_trailing_zeros_app ds 0 Hlast) as Hstrip.
  simpl in Hstrip. now rewrite app_nil_r in Hstrip.
Qed.















(** ** Strings: [JSON.parse] reads what [QuoteJSONString] prints *)



(** ** White space *)







(** ** Values: [JSON.parse] reads what [JSON.stringify] prints *)






Lemma parse_elements_S fuel s :
  parse_elements (S fuel) s =
  '(item, rest) ← parse_value fuel s;
  match skip_ws rest with
  | String "," rest' =>
      '(items, rest'') ← parse_elements fuel (skip_ws rest');
      Some (item :: items, rest'')
  | String "]" rest' => Some ([item], rest')
  | _ => None
  end.
Proof. reflexivity. Qed.

Lemma parse_members_S fuel s :
  parse_members (S fuel) (String "034" s) =
  '(k, rest) ← parse_chars s;
  match skip_ws rest with
  | String ":" rest' =>
      '(item, rest'') ← parse_value fuel (skip_ws rest');
      match skip_ws rest'' with
      | String "," r =>
          '(members, r') ← parse_members fuel (skip_ws r);
          Some ((k, item) :: members, r')
      | String "}" r => Some ([(k, item)], r)
      | _ => None
      end
  | _ => None
  end.
Proof. reflexivity. Qed.



Lemma parse_value_number fuel s x rest :
  parse_number s = Some (x, rest) ->
  parse_value (S fuel) s = Some (JNumber x, rest).
Proof.
  intros Hnumber. destruct s as [ | c s ]; [ discriminate | ].
  destruct c as [[] [] [] [] [] [] [] []];
    try (cbn [parse_value]; rewrite Hnumber; reflexivity);
    discriminate.
Qed.

Lemma parse_value_array fuel s items rest :
  parse_elements fuel (skip_ws s) = Some (items, rest) ->
  parse_value (S fuel) (String "[" s) = Some (JArray items, rest).
Proof.
  intros Helements. cbn [parse_value].
  destruct (skip_ws s) as [ | c s' ] eqn:Hskip.
  - now rewrite Helements.
  - destruct c as [[] [] [] [] [] [] [] []];
      try (rewrite Helements; reflexivity).
    destruct fuel as [ | [ | fuel ] ]; discriminate.
Qed.

Lemma parse_value_object fuel s members rest :
  parse_members fuel (skip_ws s) = Some (members, rest) ->
  parse_value (S fuel) (String "{" s) = Some (build_object members, rest).
Proof.
  intros Hmembers. cbn [parse_value].
  destruct (skip_ws s) as [ | c s' ] eqn:Hskip.
  - now rewrite Hmembers.
  - destruct c as [[] [] [] [] [] [] [] []];
      try (rewrite Hmembers; reflexivity).
    destruct fuel as [ | fuel ]; discriminate.
Qed.

Section Roundtrip.

Variables gap indent : string.



End Roundtrip.

(** ** Objects: properties in the order of own property keys *)

Lemma has_key_In k props : has_key k props = true <-> In k (map fst props).
Proof.
  induction props as [ | [k' v] props IH ]; simpl; [ easy | ].
  rewrite orb_true_iff, IH, String.eqb_eq. tauto.
Qed.

Lemma distinct_iff ks : distinct ks = true <-> List.NoDup ks.
Proof.
  split; [ apply distinct_NoDup | ].
  induction 1 as [ | k ks Hfresh Hks IH ]; simpl; [ reflexivity | ].
  rewrite IH, andb_true_r. apply negb_true_iff.
  destruct (existsb (String.eqb k) ks) eqn:Hex; [ | reflexivity ].
  apply existsb_exists in Hex as (k' & Hin & Heq).
  apply String.eqb_eq in Heq. now subst.
Qed.

Lemma array_index_decimal k i : array_index k = Some i -> k = decimal i.
Proof.
  unfold array_index. destruct (span_digits k) as [ds [ | c rest]]; [ | discriminate ].
  destruct (String.eqb_spec (decimal (digits_value ds)) k) as [Heq | ];
    [ | discriminate ].
  simpl. destruct (digits_value ds <? 4294967295)%N; [ | discriminate ].
  now intros [= <-].
Qed.

Lemma key_before_trans k1 k2 k3 :
  key_before k1 k2 = true -> key_before k2 k3 = true -> key_before k1 k3 = true.
Proof.
  unfold key_before.
  destruct (array_index k1), (array_index k2), (array_index k3);
    try discriminate; try reflexivity.
  rewrite !N.ltb_lt. lia.
Qed.

Lemma ordered_snoc ks k :
  ordered (ks ++ [k]) = true <->
  ordered ks = true /\ forallb (fun k' => key_before k' k) ks = true.
Proof.
  induction ks as [ | k' ks IH ]; simpl; [ easy | ].
  rewrite !andb_true_iff, forallb_app, andb_true_iff, IH. simpl.
  rewrite andb_true_r. tauto.
Qed.





(** ** The fuel [JSON_parse_text] gives is enough *)





(** ** What [JSON.parse] returns is well formed *)

Lemma strip_leading_zeros_head ds : forall n,
  fst (strip_leading_zeros ds n) = [] \/
  head_nonzero (fst (strip_leading_zeros ds n)) = true.
Proof.
  induction ds as [ | d ds IH ]; intros n; [ now left | ].
  destruct d; try (now right). apply IH.
Qed.

Lemma strip_trailing_zeros_last ds :
  strip_trailing_zeros ds = [] \/ last_nonzero (strip_trailing_zeros ds) = true.
Proof.
  induction ds as [ | d ds IH ]; [ now left | ]. simpl.
  destruct (strip_trailing_zeros ds) as [ | d' t ].
  - destruct (digit_is_zero d) eqn:Hd; [ now left | right; simpl; now rewrite Hd ].
  - right. destruct IH as [ | IH ]; [ discriminate | exact IH ].
Qed.

Lemma strip_trailing_zeros_head ds :
  head_nonzero ds = true ->
  strip_trailing_zeros ds ≠ [] /\ head_nonzero (strip_trailing_zeros ds) = true.
Proof.
  destruct ds as [ | d ds ]; [ discriminate | ]. simpl. intros Hd.
  destruct (strip_trailing_zeros ds).
  - apply negb_true_iff in Hd. rewrite Hd. simpl. now rewrite Hd.
  - now split.
Qed.

Lemma number_of_literal_wf negative int frac exp :
  wf_number (number_of_literal negative int frac exp) = true.
Proof.
  unfold number_of_literal.
  pose proof (strip_leading_zeros_head (int ++ frac) (Z.of_nat (length int) + exp))
    as Hhead.
  destruct (strip_leading_zeros _ _) as [ds n]. simpl in Hhead.
  destruct Hhead as [-> | Hhead]; [ reflexivity | ].
  apply strip_trailing_zeros_head in Hhead as [Hne Hhead].
  pose proof (strip_trailing_zeros_last ds) as [Hnil | Hlast]; [ contradiction | ].
  destruct (strip_trailing_zeros ds) as [ | d t ]; [ contradiction | ].
  cbn [nonempty].
  destruct (overflows (d :: t) n) eqn:Hover; [ reflexivity | ].
  destruct (underflows (d :: t) n) eqn:Hunder; [ reflexivity | ].
  unfold wf_number. now rewrite Hhead, Hlast, Hover, Hunder.
Qed.

Lemma parse_number_wf s x rest :
  parse_number s = Some (x, rest) -> wf_number x = true.
Proof.
  unfold parse_number. destruct (parse_sign s) as [negative s1].
  destruct (parse_int s1) as [[int s2] | ]; [ | discriminate ]. simpl.
  destruct (parse_frac s2) as [[frac s3] | ]; [ | discriminate ]. simpl.
  destruct (parse_exp s3) as [[exp s4] | ]; [ | discriminate ]. simpl.
  intros [= <- _]. apply number_of_literal_wf.
Qed.

Lemma replace_value_keys k v props :
  map fst (replace_value k v props) = map fst props.
Proof.
  induction props as [ | [k' v'] props IH ]; simpl; [ reflexivity | ].
  destruct (String.eqb k' k); simpl; [ reflexivity | now rewrite IH ].
Qed.

Lemma replace_value_values (P : JsonValue -> Prop) k v props :
  P v -> Forall (fun member => P (snd member)) props ->
  Forall (fun member => P (snd member)) (replace_value k v props).
Proof.
  intros Hv. induction 1 as [ | [k' v'] props Hmember Hprops IH ]; simpl;
    [ constructor | ].
  destruct (String.eqb k' k); constructor; assumption.
Qed.

Lemma insert_index_In i k v props x :
  In x (map fst (insert_index i k v props)) <-> x = k \/ In x (map fst props).
Proof.
  induction props as [ | [k' v'] props IH ]; simpl; [ intuition congruence | ].
  destruct (array_index k') as [j | ]; [ destruct (j <? i)%N | ]; simpl;
    rewrite ?IH; intuition congruence.
Qed.

Lemma insert_index_values (P : JsonValue -> Prop) i k v props :
  P v -> Forall (fun member => P (snd member)) props ->
  Forall (fun member => P (snd member)) (insert_index i k v props).
Proof.
  intros Hv. induction 1 as [ | [k' v'] props Hmember Hprops IH ]; simpl.
  - now repeat constructor.
  - destruct (array_index k') as [j | ]; [ destruct (j <? i)%N | ];
      repeat constructor; assumption.
Qed.

Lemma insert_index_NoDup i k v props :
  ~ In k (map fst props) -> List.NoDup (map fst props) ->
  List.NoDup (map fst (insert_index i k v props)).
Proof.
  intros Hnew Hnodup.
  induction props as [ | [k' v'] props IH ]; simpl in *.
  - repeat constructor. easy.
  - inversion Hnodup as [ | ? ? Hfresh Hrest ]; subst.
    assert (Hcons : List.NoDup (k :: k' :: map fst props))
      by (constructor; [ simpl; tauto | exact Hnodup ]).
    destruct (array_index k') as [j | ]; [ destruct (j <? i)%N | ]; simpl;
      try exact Hcons.
    constructor.
    + rewrite insert_index_In. intuition congruence.
    + apply IH; [ tauto | exact Hrest ].
Qed.

Lemma forallb_key_before_trans k k' ks :
  key_before k k' = true ->
  forallb (key_before k') ks = true ->
  forallb (key_before k) ks = true.
Proof.
  intros Hk. rewrite !forallb_forall. intros Hall x Hin.
  eapply key_before_trans; [ exact Hk | now apply Hall ].
Qed.

Lemma insert_index_ordered i k v props :
  array_index k = Some i ->
  ~ In k (map fst props) ->
  ordered (map fst props) = true ->
  ordered (map fst (insert_index i k v props)) = true.
Proof.
  intros Hk Hnew.
  induction props as [ | [k' v'] props IH ]; simpl in *; [ reflexivity | ].
  intros [Hbefore Hordered]%andb_true_iff.
  assert (Hfirst : forall j, array_index k' = Some j -> (j <? i)%N = false ->
                   key_before k k' = true).
  { intros j Hk' Hji. unfold key_before. rewrite Hk, Hk'.
    apply N.ltb_lt. apply N.ltb_ge in Hji.
    assert (j ≠ i).
    { intros ->. apply array_index_decimal in Hk, Hk'. subst. tauto. }
    lia. }
  destruct (array_index k') as [j | ] eqn:Hk'; [ destruct (j <? i)%N eqn:Hji | ];
    simpl.
  - rewrite IH by tauto. rewrite andb_true_r.
    apply forallb_forall. intros x [-> | Hin]%insert_index_In.
    + unfold key_before. now rewrite Hk', Hk.
    + rewrite forallb_forall in Hbefore. now apply Hbefore.
  - rewrite (Hfirst j eq_refl Hji), Hbefore, Hordered. simpl.
    rewrite andb_true_r.
    eapply forallb_key_before_trans; [ | exact Hbefore ].
    apply (Hfirst j eq_refl Hji).
  - assert (Hkk' : key_before k k' = true)
      by (unfold key_before; now rewrite Hk, Hk').
    rewrite Hkk', Hbefore, Hordered. simpl. rewrite andb_true_r.
    eapply forallb_key_before_trans; [ exact Hkk' | exact Hbefore ].
Qed.

Lemma define_property_good props k v :
  good props -> wf v = true -> good (define_property props (k, v)).
Proof.
  intros (Hnodup & Hordered & Hvalues) Hv. unfold define_property, good.
  destruct (has_key k props) eqn:Hhas.
  - rewrite replace_value_keys. repeat split; try assumption.
    now apply (replace_value_values (fun v => wf v = true)).
  - assert (Hnew : ~ In k (map fst props)).
    { intros Hin. apply has_key_In in Hin. congruence. }
    destruct (array_index k) as [i | ] eqn:Hk.
    + repeat split.
      * now apply insert_index_NoDup.
      * now apply insert_index_ordered.
      * now apply (insert_index_values (fun v => wf v = true)).
    + rewrite map_app. simpl. repeat split.
      * apply NoDup_ListNoDup, NoDup_app. repeat split.
        -- now apply NoDup_ListNoDup.
        -- intros x Hx [-> | []]%list_elem_of_In. now apply list_elem_of_In in Hx.
        -- apply NoDup_ListNoDup. repeat constructor. easy.
      * apply ordered_snoc. split; [ exact Hordered | ].
        apply forallb_forall. intros x _. unfold key_before. rewrite Hk.
        now destruct (array_index x).
      * apply Forall_app. split; [ exact Hvalues | now repeat constructor ].
Qed.

Lemma build_object_wf_members members :
  Forall (fun member => wf (snd member) = true) members ->
  wf (build_object members) = true.
Proof.
  intros Hmembers. unfold build_object.
  assert (Hgood : good (fold_left define_property members [])).
  { assert (Hstart : good []) by (repeat split; constructor).
    revert Hstart. generalize (@nil (string * JsonValue)).
    induction Hmembers as [ | [k v] members Hv Hmembers IH ]; intros acc Hacc;
      [ exact Hacc | ].
    simpl. apply IH. now apply define_property_good. }
  destruct Hgood as (Hnodup & Hordered & Hvalues). simpl.
  apply distinct_iff in Hnodup. rewrite Hnodup, Hordered. simpl.
  apply forallb_forall. rewrite Forall_forall in Hvalues.
  intros m Hin. apply Hvalues. now apply list_elem_of_In.
Qed.

(** Taking a successful parse apart. *)
Ltac parse_steps :=
  repeat match goal with
         | H : None = Some _ |- _ => discriminate H
         | H : Some _ = Some _ |- _ => injection H as ? ?; subst
         | H : mbind _ ?m = Some _ |- _ =>
             let E := fresh "Hstep" in
             destruct m as [[? ?] | ] eqn:E; cbn [mbind option_bind] in H
         end.

(** Whatever [parse_value] returns, with whatever fuel, is in the grammar. *)
Lemma parse_sound fuel :
  (forall s v rest, parse_value fuel s = Some (v, rest) -> Parses s v rest) /\
  (forall s items rest,
     parse_elements fuel s = Some (items, rest) -> ParsesElements s items rest) /\
  (forall s members rest,
     parse_members fuel s = Some (members, rest) -> ParsesMembers s members rest).
Proof.
  induction fuel as [ | fuel (IHvalue & IHelements & IHmembers) ];
    [ repeat split; discriminate | ].
  split; [ | split ].
  - intros s v rest. destruct s as [ | c s ]; [ discriminate | ].
    destruct c as [[] [] [] [] [] [] [] []]; cbn [parse_value]; intros Hparse;
      try (parse_steps; apply Parses_number; assumption).
    all: try (destruct (strip_prefix _ _) eqn:Hprefix;
              cbn [mbind option_bind] in Hparse; parse_steps;
              first [ now apply Parses_null | now apply Parses_true
                    | now apply Parses_false ]).
    all: try (parse_steps; now apply Parses_string).
    all: destruct (skip_ws s) as [ | c s' ] eqn:Hskip;
      [ | destruct c as [[] [] [] [] [] [] [] []] ]; parse_steps;
      first [ now apply Parses_empty_array
            | now apply Parses_empty_object
            | apply Parses_array; rewrite Hskip; now apply IHelements
            | apply Parses_object; rewrite Hskip; now apply IHmembers ].
  - intros s items rest. rewrite parse_elements_S. intros Hparse.
    destruct (parse_value fuel s) as [[item r] | ] eqn:Hitem; [ | discriminate ].
    cbn [mbind option_bind] in Hparse. apply IHvalue in Hitem.
    destruct (skip_ws r) as [ | c r' ] eqn:Hskip; [ discriminate | ].
    destruct c as [[] [] [] [] [] [] [] []]; parse_steps;
      first [ eapply ParsesElements_last; eassumption
            | eapply ParsesElements_more; eauto ].
  - intros s members rest. destruct s as [ | c s ]; [ discriminate | ].
    destruct c as [[] [] [] [] [] [] [] []]; try discriminate.
    rewrite parse_members_S. intros Hparse.
    destruct (parse_chars s) as [[k r0] | ] eqn:Hkey; [ | discriminate ].
    cbn [mbind option_bind] in Hparse.
    destruct (skip_ws r0) as [ | c r1 ] eqn:Hcolon; [ discriminate | ].
    destruct c as [[] [] [] [] [] [] [] []]; try discriminate.
    destruct (parse_value fuel (skip_ws r1)) as [[item r] | ] eqn:Hitem;
      [ | discriminate ].
    cbn [mbind option_bind] in Hparse. apply IHvalue in Hitem.
    destruct (skip_ws r) as [ | c r' ] eqn:Hskip; [ discriminate | ].
    destruct c as [[] [] [] [] [] [] [] []]; parse_steps;
      first [ eapply ParsesMembers_last; eassumption
            | eapply ParsesMembers_more; eauto ].
Qed.

(** Every value of the grammar is well formed. *)
Lemma Parses_wf :
  (forall s v rest, Parses s v rest -> wf v = true) /\
  (forall s items rest,
     ParsesElements s items rest -> Forall (fun v => wf v = true) items) /\
  (forall s members rest,
     ParsesMembers s members rest ->
     Forall (fun member => wf (snd member) = true) members).
Proof.
  apply Parses_mutind; intros; try reflexivity; try (now repeat constructor).
  - simpl. eapply parse_number_wf. eassumption.
  - simpl. apply forallb_forall. intros v Hin.
    match goal with H : Forall _ _ |- _ => rewrite Forall_forall in H; apply H end.
    now apply list_elem_of_In.
  - now apply build_object_wf_members.
Qed.

Lemma JSON_parse_text_wf text v : JSON_parse_text text = Some v -> wf v = true.
Proof.
  unfold JSON_parse_text.
  destruct (parse_value _ _) as [[v' rest] | ] eqn:Hparse; [ | discriminate ].
  cbn [mbind option_bind]. destruct (is_empty (skip_ws rest)); [ | discriminate ].
  intros [= <-]. eapply (proj1 Parses_wf), (proj1 (parse_sound _)), Hparse.
Qed.





(** ** Enough fuel: [JSON_parse_text] decides the grammar *)

Lemma skip_ws_length s : (String.length (skip_ws s) <= String.length s)%nat.
Proof.
  induction s as [ | c s IH ]; simpl; [ lia | ].
  destruct (is_json_space c); simpl; lia.
Qed.

Lemma strip_prefix_length p : forall s rest,
  strip_prefix p s = Some rest ->
  String.length s = (String.length p + String.length rest)%nat.
Proof.
  induction p as [ | a p IH ]; intros s rest; simpl.
  - now intros [= ->].
  - destruct s as [ | b s ]; [ discriminate | ].
    destruct (Ascii.eqb a b); [ | discriminate ].
    intros Hrest. simpl. now rewrite (IH _ _ Hrest).
Qed.

Lemma span_digits_length s : forall ds rest,
  span_digits s = (ds, rest) ->
  String.length s = (length ds + String.length rest)%nat.
Proof.
  induction s as [ | c s IH ]; intros ds rest; simpl.
  - now intros [= <- <-].
  - destruct (char_digit c).
    + destruct (span_digits s) as [ds' rest']. intros [= <- <-].
      simpl. now rewrite (IH ds' rest' eq_refl).
    + now intros [= <- <-].
Qed.

Lemma parse_int_length s int rest :
  parse_int s = Some (int, rest) -> (String.length rest < String.length s)%nat.
Proof.
  unfold parse_int. destruct (span_digits s) as [ds r] eqn:Hspan.
  apply span_digits_length in Hspan.
  destruct ds as [ | d [ | d' ds ] ]; [ discriminate | | ];
    destruct d; try discriminate; intros [= <- <-]; simpl in Hspan; lia.
Qed.

Lemma parse_frac_length s frac rest :
  parse_frac s = Some (frac, rest) -> (String.length rest <= String.length s)%nat.
Proof.
  destruct s as [ | c s ]; [ now intros [= <- <-] | ].
  destruct c as [[] [] [] [] [] [] [] []]; try (now intros [= <- <-]).
  simpl. destruct (span_digits s) as [ds r] eqn:Hspan.
  apply span_digits_length in Hspan.
  destruct ds; [ discriminate | ]. intros [= <- <-]. lia.
Qed.

Lemma parse_exp_length s exp rest :
  parse_exp s = Some (exp, rest) -> (String.length rest <= String.length s)%nat.
Proof.
  destruct s as [ | c s ]; [ now intros [= <- <-] | ].
  destruct c as [[] [] [] [] [] [] [] []]; try (now intros [= <- <-]).
  all: simpl;
    destruct s as [ | c s ]; [ discriminate | ];
    destruct c as [[] [] [] [] [] [] [] []];
    match goal with
    | |- context [span_digits ?t] =>
        destruct (span_digits t) as [ds r] eqn:Hspan;
        apply span_digits_length in Hspan;
        destruct ds; [ discriminate | ]; intros [= <- <-]; simpl in *; lia
    end.
Qed.

Lemma parse_sign_length s : (String.length (snd (parse_sign s)) <= String.length s)%nat.
Proof.
  destruct s as [ | c s ]; [ simpl; lia | ].
  destruct c as [[] [] [] [] [] [] [] []]; simpl; lia.
Qed.

Lemma parse_number_length s x rest :
  parse_number s = Some (x, rest) -> (String.length rest < String.length s)%nat.
Proof.
  unfold parse_number. pose proof (parse_sign_length s) as Hsign.
  destruct (parse_sign s) as [negative s1]. simpl in Hsign.
  destruct (parse_int s1) as [[int s2] | ] eqn:Hint; [ | discriminate ].
  cbn [mbind option_bind].
  destruct (parse_frac s2) as [[frac s3] | ] eqn:Hfrac; [ | discriminate ].
  cbn [mbind option_bind].
  destruct (parse_exp s3) as [[exp s4] | ] eqn:Hexp; [ | discriminate ].
  cbn [mbind option_bind]. intros [= _ <-].
  apply parse_int_length in Hint. apply parse_frac_length in Hfrac.
  apply parse_exp_length in Hexp. lia.
Qed.

Ltac chars_steps H :=
  repeat match type of H with
         | None = Some _ => discriminate H
         | Some _ = Some _ => injection H as ? ?; subst
         | context [unicode_escape ?a ?b ?c ?d] =>
             destruct (unicode_escape a b c d); cbn [mbind option_bind] in H
         | context [parse_chars ?t] =>
             let E := fresh "Hrest" in
             destruct (parse_chars t) as [[? ?] | ] eqn:E;
             cbn [mbind option_bind] in H
         end.

Lemma parse_chars_length_bounded n : forall s chars rest,
  (String.length s <= n)%nat ->
  parse_chars s = Some (chars, rest) ->
  (String.length rest < String.length s)%nat.
Proof.
  induction n as [ | n IH ]; intros s chars rest Hn Hparse.
  - destruct s; [ discriminate | simpl in Hn; lia ].
  - destruct s as [ | c s1 ]; [ discriminate | ]. simpl in Hn.
    destruct c as [[] [] [] [] [] [] [] []]; simpl in Hparse;
      try (chars_steps Hparse;
           match goal with
           | E : parse_chars _ = Some _ |- _ => apply IH in E; simpl in *; lia
           | _ => simpl; lia
           end).
    destruct s1 as [ | e s2 ]; [ discriminate | ]. simpl in Hn.
    destruct e as [[] [] [] [] [] [] [] []]; simpl in Hparse;
      try (chars_steps Hparse;
           match goal with
           | E : parse_chars _ = Some _ |- _ => apply IH in E; simpl in *; lia
           end).
    destruct s2 as [ | h1 [ | h2 [ | h3 [ | h4 s6 ] ] ] ]; simpl in Hparse;
      try discriminate.
    simpl in Hn. chars_steps Hparse.
    match goal with
    | E : parse_chars _ = Some _ |- _ => apply IH in E; simpl in *; lia
    end.
Qed.

Lemma parse_chars_length s chars rest :
  parse_chars s = Some (chars, rest) ->
  (String.length rest < String.length s)%nat.
Proof. apply (parse_chars_length_bounded (String.length s)). lia. Qed.

Lemma parse_value_literal fuel s rest :
  (strip_prefix "null" s = Some rest ->
   parse_value (S fuel) s = Some (JNull, rest)) /\
  (strip_prefix "true" s = Some rest ->
   parse_value (S fuel) s = Some (JBool true, rest)) /\
  (strip_prefix "false" s = Some rest ->
   parse_value (S fuel) s = Some (JBool false, rest)).
Proof.
  destruct s as [ | c s ]; [ repeat split; discriminate | ].
  destruct c as [[] [] [] [] [] [] [] []];
    repeat split; try discriminate; intros Hprefix;
    cbn [parse_value]; now rewrite Hprefix.
Qed.

Lemma parse_value_string fuel s chars rest :
  parse_chars s = Some (chars, rest) ->
  parse_value (S fuel) (String "034" s) = Some (JString chars, rest).
Proof. intros Hchars. cbn [parse_value]. now rewrite Hchars. Qed.

Lemma parse_value_empty fuel s rest :
  (skip_ws s = String "]" rest ->
   parse_value (S fuel) (String "[" s) = Some (JArray [], rest)) /\
  (skip_ws s = String "}" rest ->
   parse_value (S fuel) (String "{" s) = Some (JObject [], rest)).
Proof. split; intros Hskip; cbn [parse_value]; now rewrite Hskip. Qed.

(** A value of the grammar takes up at least one character, and
    [parse_value] finds it with twice as much fuel as it has characters. *)
Lemma parse_complete :
  (forall s v rest, Parses s v rest ->
     (String.length rest < String.length s)%nat /\
     forall fuel, (2 * (String.length s - String.length rest) <= fuel)%nat ->
                  parse_value fuel s = Some (v, rest)) /\
  (forall s items rest, ParsesElements s items rest ->
     (String.length rest < String.length s)%nat /\
     forall fuel, (2 * (String.length s - String.length rest) <= fuel)%nat ->
                  parse_elements fuel s = Some (items, rest)) /\
  (forall s members rest, ParsesMembers s members rest ->
     (String.length rest < String.length s)%nat /\
     forall fuel, (2 * (String.length s - String.length rest) <= fuel)%nat ->
                  parse_members fuel s = Some (members, rest)).
Proof.
  apply Parses_mutind.
  - intros s rest Hprefix. pose proof (strip_prefix_length _ _ _ Hprefix) as Hlen.
    simpl in Hlen. split; [ lia | ]. intros [ | fuel ] Hfuel; [ lia | ].
    now apply parse_value_literal.
  - intros s rest Hprefix. pose proof (strip_prefix_length _ _ _ Hprefix) as Hlen.
    simpl in Hlen. split; [ lia | ]. intros [ | fuel ] Hfuel; [ lia | ].
    now apply parse_value_literal.
  - intros s rest Hprefix. pose proof (strip_prefix_length _ _ _ Hprefix) as Hlen.
    simpl in Hlen. split; [ lia | ]. intros [ | fuel ] Hfuel; [ lia | ].
    now apply parse_value_literal.
  - intros s x rest Hnumber. pose proof (parse_number_length _ _ _ Hnumber) as Hlen.
    split; [ lia | ]. intros [ | fuel ] Hfuel; [ lia | ].
    now apply parse_value_number.
  - intros s chars rest Hchars. pose proof (parse_chars_length _ _ _ Hchars) as Hlen.
    simpl. split; [ lia | ]. intros [ | fuel ] Hfuel; [ lia | ].
    now apply parse_value_string.
  - intros s rest Hskip. pose proof (skip_ws_length s) as Hlen.
    rewrite Hskip in Hlen. simpl in *. split; [ lia | ].
    intros [ | fuel ] Hfuel; [ lia | ]. now apply parse_value_empty.
  - intros s items rest _ [Hlen Hparse]. pose proof (skip_ws_length s) as Hskip.
    simpl. split; [ lia | ]. intros [ | fuel ] Hfuel; [ lia | ].
    apply parse_value_array, Hparse. lia.
  - intros s rest Hskip. pose proof (skip_ws_length s) as Hlen.
    rewrite Hskip in Hlen. simpl in *. split; [ lia | ].
    intros [ | fuel ] Hfuel; [ lia | ]. now apply parse_value_empty.
  - intros s members rest _ [Hlen Hparse]. pose proof (skip_ws_length s) as Hskip.
    simpl. split; [ lia | ]. intros [ | fuel ] Hfuel; [ lia | ].
    apply parse_value_object, Hparse. lia.
  - intros s item r rest _ [Hlen Hparse] Hskip.
    pose proof (skip_ws_length r) as Hr. rewrite Hskip in Hr. simpl in Hr.
    split; [ lia | ]. intros [ | fuel ] Hfuel; [ lia | ].
    rewrite parse_elements_S, Hparse by lia.
    cbn [mbind option_bind]. now rewrite Hskip.
  - intros s item r r' items rest _ [Hlen Hparse] Hskip _ [Hlen' Hparse'].
    pose proof (skip_ws_length r) as Hr. rewrite Hskip in Hr. simpl in Hr.
    pose proof (skip_ws_length r') as Hr'.
    split; [ lia | ]. intros [ | fuel ] Hfuel; [ lia | ].
    rewrite parse_elements_S, Hparse by lia.
    cbn [mbind option_bind]. rewrite Hskip, Hparse' by lia. reflexivity.
  - intros s k r0 r1 item r rest Hkey Hcolon _ [Hlen Hparse] Hskip.
    pose proof (parse_chars_length _ _ _ Hkey) as Hk.
    pose proof (skip_ws_length r0) as Hr0. rewrite Hcolon in Hr0. simpl in Hr0.
    pose proof (skip_ws_length r1) as Hr1.
    pose proof (skip_ws_length r) as Hr. rewrite Hskip in Hr. simpl in Hr.
    simpl. split; [ lia | ]. intros [ | fuel ] Hfuel; [ lia | ].
    rewrite parse_members_S, Hkey. cbn [mbind option_bind].
    rewrite Hcolon, Hparse by lia. cbn [mbind option_bind]. now rewrite Hskip.
  - intros s k r0 r1 item r r' members rest Hkey Hcolon _ [Hlen Hparse] Hskip
      _ [Hlen' Hparse'].
    pose proof (parse_chars_length _ _ _ Hkey) as Hk.
    pose proof (skip_ws_length r0) as Hr0. rewrite Hcolon in Hr0. simpl in Hr0.
    pose proof (skip_ws_length r1) as Hr1.
    pose proof (skip_ws_length r) as Hr. rewrite Hskip in Hr. simpl in Hr.
    pose proof (skip_ws_length r') as Hr'.
    simpl. split; [ lia | ]. intros [ | fuel ] Hfuel; [ lia | ].
    rewrite parse_members_S, Hkey. cbn [mbind option_bind].
    rewrite Hcolon, Hparse by lia. cbn [mbind option_bind].
    rewrite Hskip, Hparse' by lia. reflexivity.
Qed.

(** [JSON_parse_text] accepts exactly the texts of the grammar: a value
    between white space and nothing else. No text is refused for want of
    fuel. *)
Theorem JSON_parse_text_grammar text v :
  JSON_parse_text text = Some v <->
  exists rest, Parses (skip_ws text) v rest /\ skip_ws rest = "".
Proof.
  unfold JSON_parse_text. split.
  - destruct (parse_value _ _) as [[v' rest] | ] eqn:Hparse; [ | discriminate ].
    cbn [mbind option_bind].
    destruct (skip_ws rest) eqn:Hrest; [ | discriminate ].
    intros [= <-]. exists rest. split; [ | exact Hrest ].
    eapply (proj1 (parse_sound _)), Hparse.
  - intros (rest & Hparses & Hrest).
    apply (proj1 parse_complete) in Hparses as [Hlen Hparse].
    rewrite Hparse.
    + cbn [mbind option_bind]. now rewrite Hrest.
    + pose proof (skip_ws_length text). lia.
Qed.

(** * The views and the editor at work *)

(** ** Rows of the tree view *)

Lemma count_class_children wanted (l : list html) :
  fold_right (fun child rest => count_class wanted child + rest)%nat O l =
  list_sum (map (count_class wanted) l).
Proof. induction l as [ | h l IH ]; simpl; [ reflexivity | now rewrite IH ]. Qed.

Lemma length_flat_map {A B} (f : A -> list B) (l : list A) :
  length (flat_map f l) = list_sum (map (fun a => length (f a)) l).
Proof.
  induction l as [ | a l IH ]; simpl; [ reflexivity | ].
  now rewrite length_app, IH.
Qed.

Lemma list_sum_ones {A} (f : A -> nat) (l : list A) :
  (forall a, In a l -> f a = 1%nat) -> list_sum (map f l) = length l.
Proof.
  induction l as [ | a l IH ]; intros Hone; simpl; [ reflexivity | ].
  rewrite Hone by now left. rewrite IH; [ reflexivity | ].
  intros b Hb. apply Hone. now right.
Qed.

Lemma createNode_value expanded k v p : value (createNode expanded k v p) = v.
Proof. now destruct v. Qed.

Lemma JsonNode_eta n :
  n = mkJsonNode (key n) (value n) (type n) (path n) (isExpanded n) (children n).
Proof. now destruct n. Qed.

Lemma createNode_fields expanded k v p :
  createNode expanded k v p =
  mkJsonNode k v (typeOf v) p (bool_decide (p ∈ expanded))
    (if is_container (typeOf v) then Some (createNodes expanded p (entries v))
     else None).
Proof.
  rewrite (JsonNode_eta (createNode expanded k v p)).
  now rewrite createNode_key, createNode_value, createNode_type, createNode_path,
    createNode_isExpanded, createNode_children.
Qed.

Lemma createNode_hasChildren expanded k v p :
  hasChildren (createNode expanded k v p) = nonempty (entries v).
Proof.
  unfold hasChildren. rewrite createNode_children.
  destruct v as [ | | | | items | props ]; simpl; try reflexivity.
  - now destruct items.
  - now destruct props.
Qed.

Lemma childPath_not_root k : childPath "root" k ≠ "root".
Proof.
  intros Heq. apply (f_equal String.length) in Heq.
  unfold childPath in Heq. rewrite !string_app_length in Heq. simpl in Heq. lia.
Qed.

(** The rows of a node: its own, and those of its children when it has
    some and is expanded. *)
Lemma rows_renderNode node depth :
  count_class "tree-item" (renderNode node depth) =
  S (if hasChildren node && isExpanded node then
       match children node with
       | Some kids =>
           list_sum (map (fun child => count_class "tree-item"
                                         (renderNode child (S depth))) kids)
       | None => O
       end
     else O).
Proof.
  destruct node as [k v t p expanded kids].
  unfold hasChildren. cbn [children isExpanded].
  destruct kids as [ [ | kid kids ] | ]; destruct expanded, t, v; try reflexivity.
  all: cbn -[list_sum]; rewrite count_class_children, map_app, map_map, list_sum_app.
  all: simpl; lia.
Qed.

(** A node whose path and whose descendants' paths are all in the expand
    state is drawn with one row for each of them. *)
Lemma rows_expanded v : forall expanded k p depth,
  (forall q, In q (getAllPaths v p) -> q ∈ expanded) ->
  count_class "tree-item" (renderNode (createNode expanded k v p) depth) =
  length (getAllPaths v p).
Proof.
  induction v as [v IH] using entries_ind. intros expanded k p depth Hall.
  rewrite rows_renderNode, createNode_hasChildren, createNode_isExpanded,
    createNode_children, getAllPaths_entries.
  rewrite getAllPaths_entries in Hall.
  rewrite bool_decide_eq_true_2 by (apply Hall; now left).
  rewrite andb_true_r. simpl length. f_equal.
  destruct (entries v) as [ | member members ] eqn:Hentries; [ reflexivity | ].
  assert (Hcontainer : is_container (typeOf v) = true)
    by (destruct v; simpl in *; congruence).
  rewrite Hcontainer. cbn [nonempty]. rewrite length_flat_map.
  unfold createNodes. rewrite map_map. f_equal.
  assert (Hbelow : forall q,
            In q (flat_map (fun member => getAllPaths (snd member)
                                            (childPath p (fst member)))
                    (member :: members)) -> q ∈ expanded)
    by (intros q Hq; apply Hall; now right).
  clear Hall Hentries Hcontainer. revert Hbelow.
  induction IH as [ | m ms Hm _ IHms ]; intros Hbelow.
  - reflexivity.
  - cbn [map]. f_equal.
    + apply Hm. intros q Hq. apply Hbelow. simpl. apply in_or_app. now left.
    + apply IHms. intros q Hq. apply Hbelow. simpl. apply in_or_app. now right.
Qed.

(** The rows of the component are those of the root's children. *)
Lemma JsonViewer_rows data expanded :
  truthy data = true ->
  exists h,
    JsonViewer data expanded = Some h /\
    count_class "tree-item" h =
    list_sum (map (fun member =>
                     count_class "tree-item"
                       (renderNode (createNode expanded (fst member) (snd member)
                                      (childPath "root" (fst member))) O))
                (entries data)).
Proof.
  intros Htruthy. unfold JsonViewer. rewrite Htruthy. simpl negb. cbv iota.
  eexists. split; [ reflexivity | ].
  cbn [set_isExpanded children]. rewrite createNode_children.
  cbn [count_class]. rewrite count_class_children.
  destruct (is_container (typeOf data)) eqn:Hcontainer.
  - unfold createNodes. now rewrite !map_map.
  - destruct data; simpl in *; congruence.
Qed.

(** X2. After Expand All on a document, the tree view draws one row for
    every node of the document below the root: the rows are as many as the
    paths [getAllPaths] lists, less the root's. *)
Theorem expandAll_shows_every_node (st : EditorState) :
  truthy (parsedJson st) = true ->
  exists h,
    JsonViewer (parsedJson st) (expandedPaths (expandAll st)) = Some h /\
    S (count_class "tree-item" h) = length (getAllPaths (parsedJson st) "root").
Proof.
  intros Htruthy.
  destruct (JsonViewer_rows (parsedJson st) (expandedPaths (expandAll st)) Htruthy)
    as (h & Hview & Hrows).
  exists h. split; [ exact Hview | ]. rewrite Hrows.
  rewrite getAllPaths_entries. simpl length. f_equal.
  rewrite length_flat_map. f_equal. apply map_ext_in. intros member Hin.
  apply rows_expanded. intros q Hq.
  unfold expandAll. rewrite Htruthy. simpl.
  apply elem_of_list_to_set, list_elem_of_In.
  rewrite getAllPaths_entries. right. apply in_flat_map. now exists member.
Qed.

Lemma expandAll_shows_every_node_sample :
  let st := setParsedJson sampleJson initial_state in
  exists h,
    JsonViewer sampleJson (expandedPaths (expandAll st)) = Some h /\
    S (count_class "tree-item" h) = 24%nat.
Proof.
  intros st.
  destruct (expandAll_shows_every_node st) as (h & Hview & Hrows).
  - reflexivity.
  - exists h. split; [ exact Hview | exact Hrows ].
Defined.

(** X3. After Collapse All on a document, the tree view draws the entries
    of the document's top level and nothing below them: one row for each. *)
Theorem collapseAll_shows_top_level (st : EditorState) :
  truthy (parsedJson st) = true ->
  exists h,
    JsonViewer (parsedJson st) (expandedPaths (collapseAll st)) = Some h /\
    count_class "tree-item" h = length (entries (parsedJson st)).
Proof.
  intros Htruthy.
  destruct (JsonViewer_rows (parsedJson st) (expandedPaths (collapseAll st)) Htruthy)
    as (h & Hview & Hrows).
  exists h. split; [ exact Hview | ]. rewrite Hrows.
  apply list_sum_ones. intros member _.
  rewrite rows_renderNode, createNode_isExpanded.
  rewrite bool_decide_eq_false_2, andb_false_r; [ reflexivity | ].
  cbn [collapseAll setExpandedPaths expandedPaths].
  rewrite elem_of_singleton. apply childPath_not_root.
Qed.

Lemma collapseAll_shows_top_level_sample :
  let st := setParsedJson sampleJson initial_state in
  exists h,
    JsonViewer sampleJson (expandedPaths (collapseAll st)) = Some h /\
    count_class "tree-item" h = 7%nat.
Proof.
  intros st.
  destruct (collapseAll_shows_top_level st) as (h & Hview & Hrows).
  - reflexivity.
  - exists h. split; [ exact Hview | exact Hrows ].
Defined.

(** X4. A container node whose path is not in the expand state is drawn as
    one row: its key, a colon, and between its brackets the number of its
    entries followed by the word items (array) or keys (object), in the
    plural whatever the number. A click on the row hands over the node's
    path when the container has entries, and nothing when it has none. *)
Theorem collapsed_container_row (expanded : gset string) (k : string)
    (v : JsonValue) (p : string) (depth : nat) :
  is_container (typeOf v) = true ->
  p ∉ expanded ->
  let row := renderNode (createNode expanded k v p) depth in
  innerText row =
    k +:+ ":" +:+ (if is_array (typeOf v) then "[" else "{") +:+
    decimal (N.of_nat (length (entries v))) +:+ " " +:+
    (if is_array (typeOf v) then "items]" else "keys}") /\
  click_targets row = (if nonempty (entries v) then [p] else []) /\
  count_class "tree-item" row = 1%nat.
Proof.
  intros Hcontainer Hout. cbv zeta. rewrite createNode_fields, Hcontainer.
  rewrite (bool_decide_eq_false_2 _ Hout).
  assert (Hcount : length (createNodes expanded p (entries v)) = length (entries v))
    by apply length_map.
  assert (Hkids : nonempty (createNodes expanded p (entries v)) = nonempty (entries v))
    by (unfold createNodes; now destruct (entries v)).
  revert Hcount Hkids. generalize (createNodes expanded p (entries v)).
  intros kids Hcount Hkids.
  rewrite <- Hcount, <- Hkids. clear Hcount Hkids.
  destruct v; try discriminate; destruct kids as [ | kid kids ];
    cbn -[decimal N.of_nat]; autorewrite with strings; repeat split.
Qed.

Lemma collapsed_container_row_one_item :
  let row := renderNode (createNode ∅ "tags" (JArray [JString "x"]) "root.tags") 1 in
  innerText row = "tags:[1 items]" /\ click_targets row = ["root.tags"].
Proof.
  intros row.
  destruct (collapsed_container_row ∅ "tags" (JArray [JString "x"]) "root.tags" 1)
    as (Htext & Hclick & _).
  - reflexivity.
  - apply not_elem_of_empty.
  - split; [ exact Htext | exact Hclick ].
Defined.

(** X5. A node that is not a container is drawn as one row, the same
    whatever the expand state holds: its key, a colon and the value as the
    formatted view prints it; the row has no button and a click on it hands
    over nothing. *)
Theorem scalar_row (expanded : gset string) (k : string) (v : JsonValue)
    (p : string) (depth depth' : nat) :
  is_container (typeOf v) = false ->
  let row := renderNode (createNode expanded k v p) depth in
  innerText row = k +:+ ":" +:+ innerText (renderSyntaxHighlightedJson v depth') /\
  click_targets row = [] /\
  count_tag "button" row = O /\
  count_class "tree-item" row = 1%nat.
Proof.
  destruct v; try discriminate; intros _; cbn; autorewrite with strings;
    now repeat split.
Qed.

Lemma scalar_row_age :
  innerText
    (renderNode (createNode {["root.age"]} "age" (JNumber (Finite false [d3] 2))
                   "root.age") 0) = "age:30".
Proof.
  destruct (scalar_row {["root.age"]} "age" (JNumber (Finite false [d3] 2))
              "root.age" 0 0) as (Htext & _).
  - reflexivity.
  - exact Htext.
Defined.

(** X6. The tree view is an empty box exactly for the documents without
    entries that are truthy: the empty array, the empty object, [true], a
    number other than 0 and a string other than the empty one. *)
Theorem tree_empty_box (data : JsonValue) (expanded : gset string) :
  JsonViewer data expanded = Some (Element "div" "font-mono text-sm" None None [])
  <-> truthy data = true /\ entries data = [].
Proof.
  unfold JsonViewer. destruct (truthy data); cbn [negb set_isExpanded children].
  - rewrite createNode_children. unfold createNodes.
    destruct (is_container (typeOf data)) eqn:Hcontainer.
    + rewrite map_map. destruct (entries data); simpl.
      * now split.
      * split; [ discriminate | intros [_ [=]] ].
    + split; [ intros _ | reflexivity ].
      destruct data; simpl in *; (discriminate || now split).
  - split; [ discriminate | intros [[=] _] ].
Qed.

(** ** The expand state and the tree *)

Lemma node_at_paths position : forall node n,
  node_at node position = Some n -> In (path n) (node_paths node).
Proof.
  induction position as [ | i rest IH ]; intros node n Hat.
  - simpl in Hat. injection Hat as <-. rewrite node_paths_unfold. now left.
  - rewrite node_at_cons in Hat. rewrite node_paths_unfold. right.
    destruct (children node) as [kids | ]; [ | discriminate ].
    destruct (nth_error kids i) as [kid | ] eqn:Hkid; [ | discriminate ].
    apply in_flat_map. exists kid. split.
    + eapply nth_error_In. exact Hkid.
    + now apply IH.
Qed.

(** X1. After Expand All on a document, every node of the tree built with
    the new expand state is marked expanded, the nested ones too. *)
Theorem expandAll_expands_every_node (st : EditorState) (position : list nat)
    (n : JsonNode) :
  truthy (parsedJson st) = true ->
  node_at (createNode (expandedPaths (expandAll st)) "root" (parsedJson st) "root")
    position = Some n ->
  isExpanded n = true.
Proof.
  intros Htruthy Hat.
  pose proof (node_at_paths _ _ _ Hat) as Hin.
  rewrite <- getAllPaths_node_paths in Hin.
  apply node_at_createNode in Hat as (ks & k & v & _ & ->).
  rewrite createNode_isExpanded. rewrite createNode_path in Hin.
  apply bool_decide_eq_true_2.
  unfold expandAll. rewrite Htruthy. simpl.
  apply elem_of_list_to_set. now apply list_elem_of_In.
Qed.

Lemma expandAll_expands_every_node_city :
  let st := setParsedJson sampleJson initial_state in
  let n := createNode (expandedPaths (expandAll st)) "city" (JString "New York")
             "root.address.city" in
  node_at (createNode (expandedPaths (expandAll st)) "root" sampleJson "root")
    [3; 1]%nat = Some n /\
  isExpanded n = true.
Proof.
  intros st n. split; [ reflexivity | ].
  apply (expandAll_expands_every_node st [3; 1]%nat n); reflexivity.
Defined.

Lemma click_targets_children (l : list html) :
  fold_right (fun child rest => click_targets child ++ rest) [] l =
  flat_map click_targets l.
Proof. induction l as [ | h l IH ]; simpl; [ reflexivity | now rewrite IH ]. Qed.

(** A click on a row hands over the node's path when the node has children;
    the rows below are those of the children. *)
Lemma clicks_renderNode node depth :
  click_targets (renderNode node depth) =
  (if hasChildren node then [path node] else []) ++
  (if hasChildren node && isExpanded node then
     match children node with
     | Some kids =>
         flat_map (fun child => click_targets (renderNode child (S depth))) kids
     | None => []
     end
   else []).
Proof.
  destruct node as [k v t p expanded kids].
  unfold hasChildren. cbn [children isExpanded path].
  destruct kids as [ [ | kid kids ] | ]; destruct expanded, t, v; try reflexivity.
  all: cbn -[flat_map]; rewrite click_targets_children, flat_map_app.
  all: rewrite (flat_map_concat_map click_targets (map _ _)), map_map,
         <- flat_map_concat_map.
  all: simpl; now rewrite !app_nil_r.
Qed.

(** Every path of a subtree extends the path of its root. *)
Lemma getAllPaths_extends v : forall p q,
  In q (getAllPaths v p) -> exists s, q = p +:+ s.
Proof.
  induction v as [v IH] using entries_ind. intros p q.
  rewrite getAllPaths_entries. intros [<- | Hin].
  - exists "". now rewrite string_app_nil_r.
  - apply in_flat_map in Hin as (member & Hmember & Hq).
    pose proof (proj2 (list_elem_of_In _ _) Hmember) as Hin.
    apply (proj1 (Forall_forall _ _) IH member Hin) in Hq as (s & ->).
    exists ("." +:+ fst member +:+ s). unfold childPath.
    now rewrite !string_app_assoc.
Qed.

Lemma below_root_not_root k v q :
  In q (getAllPaths v (childPath "root" k)) -> q ≠ "root".
Proof.
  intros Hin Heq. apply getAllPaths_extends in Hin as (s & ->).
  apply (f_equal String.length) in Heq.
  unfold childPath in Heq. rewrite !string_app_length in Heq. simpl in Heq. lia.
Qed.

Lemma clicks_createNode v : forall expanded k p depth q,
  In q (click_targets (renderNode (createNode expanded k v p) depth)) ->
  exists position n,
    node_at (createNode expanded k v p) position = Some n /\
    path n = q /\ hasChildren n = true.
Proof.
  induction v as [v IH] using entries_ind. intros expanded k p depth q.
  rewrite clicks_renderNode. intros [Hhere | Hbelow]%in_app_or.
  - destruct (hasChildren _) eqn:Hkids; [ | destruct Hhere ].
    destruct Hhere as [<- | []]. exists [], (createNode expanded k v p).
    now repeat split.
  - destruct (hasChildren _ && isExpanded _); [ | destruct Hbelow ].
    rewrite createNode_children in Hbelow.
    pose proof (createNode_children expanded k v p) as Hchildren.
    destruct (is_container (typeOf v)); [ | destruct Hbelow ].
    apply in_flat_map in Hbelow as (kid & Hkid & Hq).
    apply In_nth_error in Hkid as (i & Hi).
    unfold createNodes in Hi. rewrite nth_error_map in Hi.
    destruct (nth_error (entries v) i) as [member | ] eqn:Hmember; [ | discriminate ].
    injection Hi as <-.
    pose proof (proj2 (list_elem_of_In _ _) (nth_error_In _ _ Hmember)) as Hin.
    apply (proj1 (Forall_forall _ _) IH member Hin) in Hq
      as (position & n & Hat & Hpath & Hkids).
    exists (i :: position), n. split; [ | now split ].
    rewrite node_at_cons, Hchildren. unfold createNodes.
    now rewrite nth_error_map, Hmember.
Qed.

(** X7. Whatever the tree view shows, a click in it hands to
    [onNodeToggle] only the path of a node below the root that has
    children: never the root's path, and never the path of a scalar or of
    an empty container. *)
Theorem tree_clicks_are_containers (data : JsonValue) (expanded : gset string)
    (h : html) (q : string) :
  JsonViewer data expanded = Some h ->
  In q (click_targets h) ->
  q ≠ "root" /\
  exists i position n,
    node_at (createNode expanded "root" data "root") (i :: position) = Some n /\
    path n = q /\ hasChildren n = true.
Proof.
  unfold JsonViewer. destruct (truthy data); [ | discriminate ].
  intros [= <-]. cbn [negb set_isExpanded children click_targets app].
  rewrite click_targets_children.
  pose proof (createNode_children expanded "root" data "root") as Hchildren.
  rewrite Hchildren.
  destruct (is_container (typeOf data)); [ | intros [] ].
  rewrite flat_map_concat_map, map_map, <- flat_map_concat_map.
  intros (kid & Hkid & Hq)%in_flat_map.
  apply In_nth_error in Hkid as (i & Hi).
  unfold createNodes in Hi. rewrite nth_error_map in Hi.
  destruct (nth_error (entries data) i) as [member | ] eqn:Hmember; [ | discriminate ].
  injection Hi as <-.
  apply clicks_createNode in Hq as (position & n & Hat & Hpath & Hkids).
  split.
  - apply node_at_paths in Hat. rewrite <- getAllPaths_node_paths, Hpath in Hat.
    now apply below_root_not_root in Hat.
  - exists i, position, n. split; [ | now split ].
    rewrite node_at_cons, Hchildren. unfold createNodes.
    now rewrite nth_error_map, Hmember.
Qed.

Lemma tree_clicks_are_containers_list :
  let data := JObject [("a", JArray [JNull])] in
  let h := Element "div" "font-mono text-sm" None None
             [renderNode (createNode ∅ "a" (JArray [JNull]) "root.a") 0] in
  JsonViewer data ∅ = Some h /\
  In "root.a" (click_targets h) /\
  exists i position n,
    node_at (createNode ∅ "root" data "root") (i :: position) = Some n /\
    path n = "root.a" /\ hasChildren n = true.
Proof.
  intros data h.
  split; [ reflexivity | ]. split; [ now left | ].
  apply (tree_clicks_are_containers data ∅ h "root.a"); [ reflexivity | now left ].
Defined.

(** The tree depends on the expand state only through the paths of its
    own nodes. *)
Lemma createNode_ext v : forall expanded1 expanded2 k p,
  (forall q, In q (getAllPaths v p) -> q ∈ expanded1 <-> q ∈ expanded2) ->
  createNode expanded1 k v p = createNode expanded2 k v p.
Proof.
  induction v as [v IH] using entries_ind. intros expanded1 expanded2 k p Hsame.
  rewrite !createNode_fields. rewrite getAllPaths_entries in Hsame.
  f_equal.
  - apply bool_decide_ext, Hsame. now left.
  - destruct (is_container (typeOf v)); [ | reflexivity ]. f_equal.
    unfold createNodes. apply map_ext_in. intros member Hmember.
    apply (proj1 (Forall_forall _ _) IH member (proj2 (list_elem_of_In _ _) Hmember)).
    intros q Hq. apply Hsame. right. apply in_flat_map. now exists member.
Qed.

(** X8. The tree view reads the expand state only at the paths of the
    document's nodes below the root: two expand states that agree on those
    paths give the same view. So the root's own entry is not read (the
    root's children are always on show), and paths left in the expand
    state by an earlier document change nothing. *)
Theorem tree_reads_only_own_paths (data : JsonValue) (expanded1 expanded2 : gset string) :
  (forall q, In q (getAllPaths data "root") -> q ≠ "root" ->
             q ∈ expanded1 <-> q ∈ expanded2) ->
  JsonViewer data expanded1 = JsonViewer data expanded2.
Proof.
  intros Hsame. unfold JsonViewer. destruct (truthy data); [ | reflexivity ].
  cbn [negb set_isExpanded children]. rewrite !createNode_children.
  destruct (is_container (typeOf data)); [ | reflexivity ].
  do 2 f_equal. unfold createNodes. rewrite !map_map.
  apply map_ext_in. intros member Hmember. cbn [fst snd]. f_equal.
  apply createNode_ext. intros q Hq. apply Hsame.
  - rewrite getAllPaths_entries. right. apply in_flat_map. now exists member.
  - eapply below_root_not_root, Hq.
Qed.

Lemma tree_reads_only_own_paths_stale :
  let data := JObject [("a", JNull)] in
  JsonViewer data ∅ = JsonViewer data ({["root"]} ∪ {["root.gone"]}).
Proof.
  intros data.
  apply (tree_reads_only_own_paths data ∅ ({["root"]} ∪ {["root.gone"]})).
  intros q [<- | [<- | []]] Hq; [ now destruct Hq | ].
  rewrite elem_of_union, !elem_of_singleton. split.
  - intros Hin. now apply not_elem_of_empty in Hin.
  - intros [Heq | Heq]; discriminate Heq.
Defined.




(** X10. Toggles of two nodes commute: the expand state after two clicks
    does not depend on their order. *)
Theorem toggles_commute (p q : string) (st : EditorState) :
  handleNodeToggle p (handleNodeToggle q st) =
  handleNodeToggle q (handleNodeToggle p st).
Proof.
  destruct st as [input parsed err paths tab].
  unfold handleNodeToggle, setExpandedPaths.
  cbn [expandedPaths jsonInput parsedJson validationError activeTab].
  f_equal. apply set_eq. intros x.
  destruct (decide (p = q)) as [-> | Hpq]; [ reflexivity | ].
  destruct (bool_decide_reflect (q ∈ paths)) as [Hq | Hq];
    destruct (bool_decide_reflect (p ∈ paths)) as [Hp | Hp].
  - rewrite (bool_decide_eq_true_2 (p ∈ paths ∖ {[q]})) by membership.
    rewrite (bool_decide_eq_true_2 (q ∈ paths ∖ {[p]})) by membership.
    membership.
  - rewrite (bool_decide_eq_false_2 (p ∈ paths ∖ {[q]})) by membership.
    rewrite (bool_decide_eq_true_2 (q ∈ paths ∪ {[p]})) by membership.
    destruct (decide (x = p)), (decide (x = q)); membership.
  - rewrite (bool_decide_eq_true_2 (p ∈ paths ∪ {[q]})) by membership.
    rewrite (bool_decide_eq_false_2 (q ∈ paths ∖ {[p]})) by membership.
    destruct (decide (x = p)), (decide (x = q)); membership.
  - rewrite (bool_decide_eq_false_2 (p ∈ paths ∪ {[q]})) by membership.
    rewrite (bool_decide_eq_false_2 (q ∈ paths ∪ {[p]})) by membership.
    membership.
Qed.

(** ** The panels after a validation pass *)

Lemma parse_value_blank s : whitespace_only s = true ->
  forall fuel, parse_value fuel (skip_ws s) = None.
Proof.
  induction s as [ | c s IH ]; intros Hblank fuel.
  - now destruct fuel.
  - simpl in Hblank. apply andb_true_iff in Hblank as [Hc Hs].
    destruct (is_json_space c) eqn:Hjson.
    + simpl. rewrite Hjson. now apply IH.
    + simpl. rewrite Hjson. destruct fuel; [ reflexivity | ].
      destruct c as [[] [] [] [] [] [] [] []]; try discriminate Hc;
        try discriminate Hjson; reflexivity.
Qed.

(** [JSON.parse] refuses a text of white space only. *)
Lemma JSON_parse_text_blank s : whitespace_only s = true -> JSON_parse_text s = None.
Proof.
  intros Hblank. unfold JSON_parse_text. now rewrite parse_value_blank.
Qed.

Section Panel.

Variable diagnostic : string -> string.

(** X11. What the panels show after a validation pass on a text. A text
    that reads as a truthy value gets the Valid badge, the enabled buttons
    and the two views of that value. A text that reads as [null], [false],
    [0] or the empty string is valid JSON and yet is shown as no document
    at all: no badge, no alert, the buttons disabled and the line that asks
    for valid JSON. A text that does not read as JSON gets the Invalid
    badge, the alert with the parser's message and the line that asks to
    fix the errors, unless it is blank or the message is empty. *)
Theorem panel_after_validation (input : string) (st : EditorState) :
  let st' := validateAndParseJson diagnostic input st in
  match JSON_parse_text input with
  | Some v =>
      alert st' = None /\
      if truthy v then
        badge st' = Valid /\ disabled st' = false /\
        output st' =
          Views (JsonViewer v (expandedPaths st)) (renderSyntaxHighlightedJson v 0)
      else
        badge st' = NoBadge /\ disabled st' = true /\
        output st' = Placeholder "Enter valid JSON to see the visualization"
  | None =>
      disabled st' = true /\
      if whitespace_only input || is_empty (diagnostic input) then
        badge st' = NoBadge /\ alert st' = None /\
        output st' = Placeholder "Enter valid JSON to see the visualization"
      else
        badge st' = Invalid /\ alert st' = Some (diagnostic input) /\
        output st' = Placeholder "Fix JSON errors to view data"
  end.
Proof.
  cbv zeta. unfold validateAndParseJson, JSON_parse. rewrite trim_empty.
  destruct (whitespace_only input) eqn:Hblank.
  - rewrite (JSON_parse_text_blank _ Hblank). now repeat split.
  - destruct (JSON_parse_text input) as [v | ].
    + unfold badge, disabled, output, alert. cbn.
      destruct (truthy v); now repeat split.
    + unfold badge, disabled, output, alert. cbn.
      destruct (diagnostic input); now repeat split.
Qed.

End Panel.

(** ** The views catch up with the buffer *)

Section Consistency.

Variable diagnostic : string -> string.

Lemma validate_jsonInput x st :
  jsonInput (validateAndParseJson diagnostic x st) = jsonInput st.
Proof.
  unfold validateAndParseJson.
  destruct (is_empty _); [ reflexivity | now destruct (JSON_parse _ _) ].
Qed.

Lemma validate_again x st :
  validateAndParseJson diagnostic x (validateAndParseJson diagnostic x st) =
  validateAndParseJson diagnostic x st.
Proof.
  unfold validateAndParseJson.
  destruct (is_empty _); [ reflexivity | now destruct (JSON_parse _ _) ].
Qed.

Lemma validate_setExpandedPaths x paths st :
  validateAndParseJson diagnostic x (setExpandedPaths paths st) =
  setExpandedPaths paths (validateAndParseJson diagnostic x st).
Proof.
  unfold validateAndParseJson.
  destruct (is_empty _); [ reflexivity | now destruct (JSON_parse _ _) ].
Qed.

Lemma validate_setActiveTab x tab st :
  validateAndParseJson diagnostic x (setActiveTab tab st) =
  setActiveTab tab (validateAndParseJson diagnostic x st).
Proof.
  unfold validateAndParseJson.
  destruct (is_empty _); [ reflexivity | now destruct (JSON_parse _ _) ].
Qed.

Lemma setJsonInput_consistent text rt :
  consistent diagnostic rt -> consistent diagnostic (setJsonInput text rt).
Proof.
  intros Hrt. unfold setJsonInput.
  destruct (String.eqb text _); [ exact Hrt | ].
  unfold consistent. simpl. split; [ reflexivity | lia ].
Qed.

Lemma setExpandedPaths_consistent paths rt :
  consistent diagnostic rt ->
  consistent diagnostic (with_state (setExpandedPaths paths (state rt)) rt).
Proof.
  unfold consistent. simpl. destruct (timeout rt) as [[remaining text] | ].
  - exact (fun H => H).
  - intros Hrt. now rewrite validate_setExpandedPaths, Hrt.
Qed.

(** Every event keeps the runtime consistent. *)
Lemma step_consistent rt ev :
  consistent diagnostic rt -> consistent diagnostic (step diagnostic rt ev).
Proof.
  intros Hrt. destruct ev as [text | files | | | | p | | | tab | ms ]; simpl.
  - now apply setJsonInput_consistent.
  - unfold handleFileUpload. destruct files as [ | file files ]; [ exact Hrt | ].
    destruct (_ && _); exact Hrt.
  - unfold onload. destruct (reading rt) as [ | file rest ]; [ exact Hrt | ].
    apply setJsonInput_consistent. exact Hrt.
  - unfold formatJson. destruct (truthy _); [ | exact Hrt ].
    now apply setJsonInput_consistent.
  - unfold minifyJson. destruct (truthy _); [ | exact Hrt ].
    now apply setJsonInput_consistent.
  - unfold handleNodeToggle. now apply setExpandedPaths_consistent.
  - unfold expandAll. destruct (truthy _).
    + now apply setExpandedPaths_consistent.
    + now destruct rt.
  - unfold collapseAll. now apply setExpandedPaths_consistent.
  - revert Hrt. unfold consistent. simpl.
    destruct (timeout rt) as [[remaining text] | ].
    + exact (fun H => H).
    + intros Hrt. now rewrite validate_setActiveTab, Hrt.
  - revert Hrt. unfold elapse, consistent.
    destruct (timeout rt) as [[remaining text] | ] eqn:Htimer.
    + intros [-> Hremaining]. destruct (Nat.leb_spec remaining ms); simpl.
      * now rewrite validate_jsonInput, validate_again.
      * split; [ reflexivity | lia ].
    + now rewrite Htimer.
Qed.

Lemma run_consistent events : forall rt,
  consistent diagnostic rt -> consistent diagnostic (run diagnostic rt events).
Proof.
  induction events as [ | ev events IH ]; intros rt Hrt; [ exact Hrt | ].
  apply IH, step_consistent, Hrt.
Qed.

Lemma mount_consistent : consistent diagnostic mount.
Proof.
  unfold consistent.
  assert (Htimer : timeout mount = Some (300%nat, jsonInput (state mount)))
    by reflexivity.
  rewrite Htimer. split; [ reflexivity | lia ].
Qed.

(** In a consistent runtime, 300 ms of rest leave no timer pending and the
    state that validation of the buffer gives. *)
Lemma settle rt :
  consistent diagnostic rt ->
  timeout (elapse diagnostic 300 rt) = None /\
  state (elapse diagnostic 300 rt) =
    validateAndParseJson diagnostic (jsonInput (state rt)) (state rt).
Proof.
  unfold consistent, elapse.
  destruct (timeout rt) as [[remaining text] | ] eqn:Htimer.
  - intros [-> Hremaining].
    destruct (Nat.leb_spec remaining 300); [ now split | lia ].
  - intros ->. now split.
Qed.

(** X12. Whatever happens after the component is mounted (edits, uploads
    and loads, Format, Minify, toggles, Expand All, Collapse All, a change
    of tab, time passing), 300 ms after the last event no timer is pending
    and the document and the message are exactly those that validation
    gives for the text then in the buffer: the views never lag the buffer
    by more than the debounce delay. *)
Theorem views_catch_up (events : list Event) :
  let rt := run diagnostic mount events in
  timeout (elapse diagnostic 300 rt) = None /\
  state (elapse diagnostic 300 rt) =
    validateAndParseJson diagnostic (jsonInput (state rt)) (state rt).
Proof. apply settle, run_consistent, mount_consistent. Qed.

End Consistency.

(** ** Format, Minify, upload and download *)

Lemma setJsonInput_same rt : setJsonInput (jsonInput (state rt)) rt = rt.
Proof. unfold setJsonInput. now rewrite String.eqb_refl. Qed.

Lemma setJsonInput_state text rt :
  state (setJsonInput text rt) = set_jsonInput text (state rt).
Proof.
  unfold setJsonInput. destruct (String.eqb_spec text (jsonInput (state rt))) as [-> | _].
  - now destruct rt as [[] ? ? ? ?].
  - reflexivity.
Qed.

(** X13. A second press of Format changes nothing, and neither does a
    second press of Minify: the buffer already holds the text, so no state
    is set and the validation timer is not started again. *)
Theorem format_twice (rt : Runtime) :
  formatJson (formatJson rt) = formatJson rt /\
  minifyJson (minifyJson rt) = minifyJson rt.
Proof.
  split.
  - unfold formatJson at 2 3.
    destruct (truthy (parsedJson (state rt))) eqn:Htruthy.
    + unfold formatJson. rewrite setJsonInput_state. cbn [set_jsonInput parsedJson].
      rewrite Htruthy.
      set (rt' := setJsonInput _ rt).
      replace (JSON_stringify (parsedJson (state rt)) 2) with (jsonInput (state rt')).
      * apply setJsonInput_same.
      * unfold rt'. now rewrite setJsonInput_state.
    + unfold formatJson. now rewrite Htruthy.
  - unfold minifyJson at 2 3.
    destruct (truthy (parsedJson (state rt))) eqn:Htruthy.
    + unfold minifyJson. rewrite setJsonInput_state. cbn [set_jsonInput parsedJson].
      rewrite Htruthy.
      set (rt' := setJsonInput _ rt).
      replace (JSON_stringify (parsedJson (state rt)) 0) with (jsonInput (state rt')).
      * apply setJsonInput_same.
      * unfold rt'. now rewrite setJsonInput_state.
    + unfold minifyJson. now rewrite Htruthy.
Qed.

Section Flows.

Variable diagnostic : string -> string.





(** The three steps of an upload that is accepted: the change event, the
    end of the read, and 300 ms. *)
Lemma upload_steps file others rt :
  file_type file = "application/json" \/ endsWith (file_name file) ".json" = true ->
  reading rt = [] ->
  file_content file ≠ jsonInput (state rt) ->
  run diagnostic rt [Upload (file :: others); Loaded; Elapse 300] =
  mkRuntime
    (validateAndParseJson diagnostic (file_content file)
       (set_jsonInput (file_content file) (state rt)))
    None (toasts rt) [] (file_content file :: validated rt).
Proof.
  intros Haccepted Hreading Hnew. unfold run. cbn [fold_left step].
  assert (Hupload : handleFileUpload (file :: others) rt =
                    mkRuntime (state rt) (timeout rt) (toasts rt) [file] (validated rt)).
  { unfold handleFileUpload. rewrite Hreading.
    destruct Haccepted as [-> | ->]; [ reflexivity | ].
    now rewrite andb_false_r. }
  rewrite Hupload. unfold onload. cbn [reading state timeout toasts validated].
  unfold setJsonInput. cbn [state].
  apply String.eqb_neq in Hnew. rewrite Hnew. reflexivity.
Qed.

(** X15. An upload that is accepted. When the first file chosen has the
    type application/json or a name that ends in .json (either is enough),
    and its text is not the one in the buffer, then once the read is over
    and 300 ms have passed the buffer holds the file's text and the state
    is what validation of that text gives; no toast is shown, the files
    chosen after the first are not read, and whatever timer was pending
    has been replaced, so that the one validation pass is on the file's
    text. *)
Theorem upload_is_validated (file : File) (others : list File) (rt : Runtime) :
  file_type file = "application/json" \/ endsWith (file_name file) ".json" = true ->
  reading rt = [] ->
  file_content file ≠ jsonInput (state rt) ->
  let rt' := run diagnostic rt [Upload (file :: others); Loaded; Elapse 300] in
  state rt' =
    validateAndParseJson diagnostic (file_content file)
      (set_jsonInput (file_content file) (state rt)) /\
  timeout rt' = None /\
  toasts rt' = toasts rt /\
  reading rt' = [] /\
  validated rt' = file_content file :: validated rt.
Proof.
  intros Haccepted Hreading Hnew. cbv zeta.
  rewrite (upload_steps file others rt Haccepted Hreading Hnew). now repeat split.
Qed.


End Flows.


Lemma upload_is_validated_by_name :
  let file := mkFile "data.json" "" "[1]" in
  let other := mkFile "more.json" "application/json" "[2]" in
  let rt := mkRuntime initial_state None [] [] [] in
  let rt' := run (fun _ => "Unexpected token") rt
               [Upload [file; other]; Loaded; Elapse 300] in
  validated rt' = ["[1]"] /\ toasts rt' = [] /\ reading rt' = [].
Proof.
  intros file other rt rt'.
  destruct (upload_is_validated (fun _ => "Unexpected token") file [other] rt)
    as (_ & _ & Htoasts & Hreading & Hvalidated).
  - right. reflexivity.
  - reflexivity.
  - discriminate.
  - split; [ exact Hvalidated | split; [ exact Htoasts | exact Hreading ] ].
Defined.


(** ** The minified text *)

Lemma printable_app a b : printable (a +:+ b) = printable a && printable b.
Proof.
  induction a as [ | c a IH ]; [ reflexivity | ].
  rewrite string_app_cons. simpl. now rewrite IH, andb_assoc.
Qed.

Lemma printable_escape_char c : printable (escape_char c) = true.
Proof. destruct c as [[] [] [] [] [] [] [] []]; reflexivity. Qed.

Lemma printable_escape_string s : printable (escape_string s) = true.
Proof.
  induction s as [ | c s IH ]; simpl; [ reflexivity | ].
  now rewrite printable_app, printable_escape_char, IH.
Qed.

Lemma printable_quoted s : printable (QuoteJSONString s) = true.
Proof.
  unfold QuoteJSONString. now rewrite !printable_app, printable_escape_string.
Qed.

Lemma printable_digits ds : printable (digits_string ds) = true.
Proof.
  induction ds as [ | d ds IH ]; simpl; [ reflexivity | ].
  rewrite IH. now destruct d.
Qed.

Lemma printable_layout ds n : printable (layout ds n) = true.
Proof.
  unfold layout, decimal.
  destruct (_ && _).
  - destruct (_ <=? _); [ | destruct (_ <? _) ];
      now rewrite !printable_app, !printable_digits.
  - destruct ds as [ | d [ | d' ds ] ]; [ reflexivity | | ];
      destruct (_ <? _); now rewrite !printable_app, !printable_digits.
Qed.

Lemma printable_number x : isFinite x = true -> printable (Number_toString x) = true.
Proof.
  destruct x as [ | negative ds n | negative ]; simpl; try easy.
  intros _. rewrite printable_app, printable_layout. now destruct negative.
Qed.

Lemma printable_concat sep parts :
  printable sep = true -> Forall (fun part => printable part = true) parts ->
  printable (String.concat sep parts) = true.
Proof.
  intros Hsep Hparts. induction Hparts as [ | part parts Hpart _ IH ]; [ reflexivity | ].
  simpl. destruct parts as [ | part' parts ]; [ exact Hpart | ].
  now rewrite !printable_app, Hpart, Hsep, IH.
Qed.

(** With the empty gap, [JSON.stringify] prints no character below the
    space: those of a string or a key are escaped. *)
Lemma printable_serialize v : forall indent,
  printable (SerializeJSONProperty "" indent v) = true.
Proof.
  induction v as [ | b | x | s | items IH | props IH ] using JsonValue_ind; intros indent.
  - reflexivity.
  - now destruct b.
  - simpl. destruct (isFinite x) eqn:Hfinite; [ now apply printable_number | reflexivity ].
  - apply printable_quoted.
  - rewrite serialize_array. cbv zeta. destruct (nonempty _); [ | reflexivity ].
    cbn [is_empty]. rewrite !printable_app, printable_concat; [ reflexivity | reflexivity | ].
    unfold array_partial. apply List.Forall_map.
    eapply List.Forall_impl; [ | exact IH ]. intros item Hitem. apply Hitem.
  - rewrite serialize_object. cbv zeta. destruct (nonempty _); [ | reflexivity ].
    cbn [is_empty]. rewrite !printable_app, printable_concat; [ reflexivity | reflexivity | ].
    unfold object_partial. apply List.Forall_map.
    eapply List.Forall_impl; [ | exact IH ]. intros member Hmember.
    cbn beta. now rewrite !printable_app, printable_quoted, Hmember.
Qed.

(** X17. After Minify on a document, the buffer is on one line: it holds no
    line break, tab or other control character, whatever the strings and
    keys of the document hold. *)
Theorem minified_on_one_line (rt : Runtime) :
  truthy (parsedJson (state rt)) = true ->
  printable (jsonInput (state (minifyJson rt))) = true.
Proof.
  intros Htruthy. unfold minifyJson. rewrite Htruthy.
  unfold setJsonInput.
  destruct (String.eqb_spec (JSON_stringify (parsedJson (state rt)) 0)
              (jsonInput (state rt))) as [<- | _];
    apply printable_serialize.
Qed.

Lemma minified_on_one_line_text :
  let text := JString (String "010" (String "009" "x")) in
  let rt := mkRuntime (setParsedJson text initial_state) None [] [] [] in
  printable (jsonInput (state (minifyJson rt))) = true.
Proof.
  intros text rt. apply (minified_on_one_line rt). reflexivity.
Defined.

(** ** Copy and Download *)

(** X18. After Format on a document, Copy and Download give the same text:
    a copy that the browser grants puts on the clipboard the text that
    Download saves. Copy changes neither the state nor the pending timer. *)
Theorem copy_matches_download (clipboard : string) (rt : Runtime) :
  truthy (parsedJson (state rt)) = true ->
  let formatted := formatJson rt in
  let copied := copyToClipboard true clipboard formatted in
  option_map file_content (downloadJson (state formatted)) = Some (fst copied) /\
  state (snd copied) = state formatted /\
  timeout (snd copied) = timeout formatted.
Proof.
  intros Htruthy. cbv zeta. unfold formatJson. rewrite Htruthy.
  unfold downloadJson, copyToClipboard. cbn [fst snd toast state timeout].
  rewrite setJsonInput_state.
  cbn [set_jsonInput parsedJson jsonInput]. rewrite Htruthy.
  split; [ reflexivity | split; reflexivity ].
Qed.

Lemma copy_matches_download_sample :
  let rt := mkRuntime (setParsedJson sampleJson initial_state) None [] [] [] in
  option_map file_content (downloadJson (state (formatJson rt))) =
  Some (fst (copyToClipboard true "" (formatJson rt))).
Proof.
  intros rt.
  destruct (copy_matches_download "" rt) as (Hsame & _); [ reflexivity | exact Hsame ].
Defined.

(** ** Line breaks of the formatted view *)

Lemma line_breaks_app a b :
  line_breaks (a +:+ b) = (line_breaks a + line_breaks b)%nat.
Proof.
  induction a as [ | c a IH ]; [ reflexivity | ].
  rewrite string_app_cons. simpl. rewrite IH. lia.
Qed.

Lemma printable_line_breaks s : printable s = true -> line_breaks s = O.
Proof.
  induction s as [ | c s IH ]; simpl; [ reflexivity | ].
  intros [Hc Hs]%andb_true_iff. rewrite (IH Hs).
  destruct c as [[] [] [] [] [] [] [] []]; try reflexivity; discriminate Hc.
Qed.

Lemma line_breaks_blanks count : line_breaks (repeat_string "  " count) = O.
Proof. induction count as [ | count IH ]; [ reflexivity | exact IH ]. Qed.

Lemma line_breaks_number x :
  line_breaks (if isFinite x then Number_toString x else "null") = O.
Proof.
  destruct (isFinite x) eqn:Hfinite; [ | reflexivity ].
  now apply printable_line_breaks, printable_number.
Qed.

Lemma line_breaks_concat sep part parts :
  line_breaks sep = 1%nat ->
  S (line_breaks (String.concat sep (part :: parts))) =
  list_sum (map (fun p => S (line_breaks p)) (part :: parts)).
Proof.
  intros Hsep. revert part. induction parts as [ | part' parts IH ]; intros part.
  - simpl. lia.
  - rewrite concat_cons2, !line_breaks_app, Hsep.
    change (list_sum (map (fun p => S (line_breaks p)) (part :: part' :: parts)))
      with (S (line_breaks part)
            + list_sum (map (fun p => S (line_breaks p)) (part' :: parts)))%nat.
    rewrite <- IH. lia.
Qed.

Lemma count_tag_children wanted (l : list html) :
  fold_right (fun child rest => count_tag wanted child + rest)%nat O l =
  list_sum (map (count_tag wanted) l).
Proof. induction l as [ | h l IH ]; simpl; [ reflexivity | now rewrite IH ]. Qed.

Lemma count_tag_span wanted className children :
  wanted ≠ "span" ->
  count_tag wanted (span className children) =
  list_sum (map (count_tag wanted) children).
Proof.
  intros Hother. unfold span. cbn [count_tag]. rewrite count_tag_children.
  apply String.eqb_neq in Hother. rewrite String.eqb_sym, Hother. reflexivity.
Qed.

Lemma list_sum_cons a l : list_sum (a :: l) = (a + list_sum l)%nat.
Proof. reflexivity. Qed.

Lemma br_array_rows depth items :
  list_sum (map (count_tag "br") (array_rows depth items)) =
  list_sum (map (fun item =>
                   S (count_tag "br" (renderSyntaxHighlightedJson item (S depth))))
              items).
Proof.
  induction items as [ | item items IH ]; [ reflexivity | ].
  cbn [array_rows map]. rewrite !list_sum_cons, IH.
  rewrite count_tag_span by discriminate. rewrite map_app, list_sum_app.
  destruct (nonempty items); simpl; lia.
Qed.

Lemma br_object_rows depth props :
  list_sum (map (count_tag "br") (object_rows depth props)) =
  list_sum (map (fun member =>
                   S (count_tag "br"
                        (renderSyntaxHighlightedJson (snd member) (S depth))))
              props).
Proof.
  induction props as [ | [k item] props IH ]; [ reflexivity | ].
  cbn [object_rows map snd]. rewrite !list_sum_cons, IH.
  rewrite count_tag_span by discriminate. rewrite map_app, list_sum_app.
  destruct (nonempty props); simpl; lia.
Qed.

Lemma br_formatted v : forall depth,
  count_tag "br" (renderSyntaxHighlightedJson v depth) =
  line_breaks (SerializeJSONProperty "  " (repeat_string "  " depth) v).
Proof.
  induction v as [ | b | x | s | items IH | props IH ] using JsonValue_ind; intros depth.
  - reflexivity.
  - now destruct b.
  - simpl SerializeJSONProperty. now rewrite line_breaks_number.
  - simpl SerializeJSONProperty.
    now rewrite (printable_line_breaks _ (printable_quoted s)).
  - destruct items as [ | item items ]; [ reflexivity | ].
    rewrite render_array, serialize_array. cbv zeta.
    cbn [array_partial map nonempty is_empty].
    rewrite count_tag_span by discriminate.
    rewrite map_cons, list_sum_cons, map_app, list_sum_app, br_array_rows.
    rewrite repeat_string_snoc.
    set (inner := repeat_string "  " (S depth)).
    assert (Hitems :
              map (fun item0 =>
                     S (count_tag "br" (renderSyntaxHighlightedJson item0 (S depth))))
                (item :: items) =
              map (fun part => S (line_breaks part))
                (SerializeJSONProperty "  " inner item
                 :: map (SerializeJSONProperty "  " inner) items)).
    { rewrite <- map_cons, map_map. apply map_ext_in. intros x Hx. f_equal.
      apply (proj1 (List.Forall_forall _ _) IH x Hx). }
    rewrite Hitems, <- (line_breaks_concat ("," +:+ newline +:+ inner))
      by (rewrite !line_breaks_app; unfold inner; now rewrite line_breaks_blanks).
    rewrite !line_breaks_app. unfold inner. rewrite !line_breaks_blanks.
    simpl. lia.
  - destruct props as [ | [k item] props ]; [ reflexivity | ].
    rewrite render_object, serialize_object. cbv zeta.
    cbn [object_partial map nonempty is_empty fst snd].
    rewrite count_tag_span by discriminate.
    rewrite map_cons, list_sum_cons, map_app, list_sum_app, br_object_rows.
    rewrite repeat_string_snoc.
    set (inner := repeat_string "  " (S depth)).
    set (part := fun member : string * JsonValue =>
                   QuoteJSONString (fst member) +:+ ":" +:+ " " +:+
                   SerializeJSONProperty "  " inner (snd member)).
    assert (Hprops :
              map (fun member =>
                     S (count_tag "br"
                          (renderSyntaxHighlightedJson (snd member) (S depth))))
                ((k, item) :: props) =
              map (fun p => S (line_breaks p)) (part (k, item) :: map part props)).
    { rewrite <- map_cons, map_map. apply map_ext_in. intros x Hx. f_equal.
      unfold part. rewrite !line_breaks_app.
      rewrite (printable_line_breaks _ (printable_quoted _)).
      apply (proj1 (List.Forall_forall _ _) IH x Hx). }
    rewrite Hprops.
    change (QuoteJSONString k +:+ ":" +:+ " " +:+ SerializeJSONProperty "  " inner item)
      with (part (k, item)).
    rewrite <- (line_breaks_concat ("," +:+ newline +:+ inner))
      by (rewrite !line_breaks_app; unfold inner; now rewrite line_breaks_blanks).
    rewrite !line_breaks_app. unfold inner. rewrite !line_breaks_blanks.
    simpl. lia.
Qed.

(** X19. For every document, the formatted view has a [<br />] for each
    line break of the text that Format prints, and no other: the two have
    the same lines also where their texts differ, as for a string with a
    quote in it or a number that is not finite. *)
Theorem formatted_view_breaks (v : JsonValue) :
  count_tag "br" (renderSyntaxHighlightedJson v 0) =
  line_breaks (JSON_stringify v 2).
Proof. apply (br_formatted v 0). Qed.

(** ** The document changes only when the timer fires *)

Section Timer.

Variable diagnostic : string -> string.

Lemma setJsonInput_document text rt :
  let rt' := setJsonInput text rt in
  parsedJson (state rt') = parsedJson (state rt) /\
  validationError (state rt') = validationError (state rt) /\
  validated rt' = validated rt.
Proof.
  unfold setJsonInput. destruct (String.eqb text _); now repeat split.
Qed.

Lemma step_document rt ev :
  (forall ms, ev <> Elapse ms) ->
  let rt' := step diagnostic rt ev in
  parsedJson (state rt') = parsedJson (state rt) /\
  validationError (state rt') = validationError (state rt) /\
  validated rt' = validated rt.
Proof.
  intros Hnot. destruct ev as [text | files | | | | p | | | tab | ms ]; cbn [step].
  - apply setJsonInput_document.
  - unfold handleFileUpload. destruct files as [ | file files ]; [ now repeat split | ].
    destruct (_ && _); now repeat split.
  - unfold onload. destruct (reading rt) as [ | file rest ]; [ now repeat split | ].
    apply (setJsonInput_document (file_content file)
             (mkRuntime (state rt) (timeout rt) (toasts rt) rest (validated rt))).
  - unfold formatJson. destruct (truthy _); [ | now repeat split ].
    apply setJsonInput_document.
  - unfold minifyJson. destruct (truthy _); [ | now repeat split ].
    apply setJsonInput_document.
  - now repeat split.
  - unfold expandAll. destruct (truthy _); now repeat split.
  - now repeat split.
  - now repeat split.
  - now destruct (Hnot ms).
Qed.

(** X20. No event other than the passing of time changes the document or
    the message, or runs a validation pass: an edit, an upload and its
    load, Format, Minify, a toggle, Expand All, Collapse All and a change
    of tab leave all three as they were, in any number and order. The
    document changes only when the debounce timer fires. *)
Theorem document_waits_for_timer (events : list Event) : forall rt : Runtime,
  Forall (fun ev => forall ms, ev <> Elapse ms) events ->
  let rt' := run diagnostic rt events in
  parsedJson (state rt') = parsedJson (state rt) /\
  validationError (state rt') = validationError (state rt) /\
  validated rt' = validated rt.
Proof.
  induction events as [ | ev events IH ]; intros rt Hevents; [ now repeat split | ].
  apply List.Forall_cons_iff in Hevents as [Hev Hevents].
  destruct (step_document rt ev Hev) as (Hdocument & Hmessage & Hvalidated).
  destruct (IH (step diagnostic rt ev) Hevents) as (IHdocument & IHmessage & IHvalidated).
  cbv zeta. unfold run in *. cbn [fold_left].
  rewrite IHdocument, IHmessage, IHvalidated. now repeat split.
Qed.

End Timer.

Lemma document_waits_for_timer_edits :
  let file := mkFile "data.json" "application/json" "[1]" in
  let rt' := run (fun _ => "Unexpected token") mount
               [Change "{"; Format; Upload [file]; Loaded; Toggle "root.address";
                CollapseAll; Minify] in
  parsedJson (state rt') = sampleJson /\ validated rt' = [].
Proof.
  intros file rt'.
  destruct (document_waits_for_timer (fun _ => "Unexpected token")
              [Change "{"; Format; Upload [file]; Loaded; Toggle "root.address";
               CollapseAll; Minify] mount) as (Hdocument & _ & Hvalidated).
  - repeat constructor; intros ms; discriminate.
  - split; [ exact Hdocument | exact Hvalidated ].
Defined.

(** ** The documents the editor holds *)

Lemma wf_distinct_keys v : wf v = true -> distinct_keys v = true.
Proof.
  unfold distinct_keys.
  induction v as [ | b | x | s | items IH | props IH ] using JsonValue_ind;
    try reflexivity.
  - cbn [wf object_keys]. rewrite !forallb_forall. intros Hitems item Hin.
    apply (proj1 (List.Forall_forall _ _) IH item Hin), Hitems, Hin.
  - cbn [wf object_keys]. intros [[Hkeys _]%andb_true_iff Hprops]%andb_true_iff.
    rewrite Hkeys. cbn [andb]. rewrite forallb_forall in *. intros member Hin.
    apply (proj1 (List.Forall_forall _ _) IH member Hin), Hprops, Hin.
Qed.

Section Documents.

Variable diagnostic : string -> string.

Lemma validate_wf x st :
  wf (parsedJson (validateAndParseJson diagnostic x st)) = true.
Proof.
  unfold validateAndParseJson, JSON_parse.
  destruct (is_empty _); [ reflexivity | ].
  destruct (JSON_parse_text x) as [v | ] eqn:Hparse; [ | reflexivity ].
  exact (JSON_parse_text_wf _ _ Hparse).
Qed.

Lemma step_wf rt ev :
  wf (parsedJson (state rt)) = true ->
  wf (parsedJson (state (step diagnostic rt ev))) = true.
Proof.
  intros Hwf.
  assert (Hcases : (exists ms, ev = Elapse ms) \/ (forall ms, ev <> Elapse ms)).
  { destruct ev; try (right; discriminate). left. now eexists. }
  destruct Hcases as [[ms ->] | Hother].
  - cbn [step]. unfold elapse.
    destruct (timeout rt) as [[remaining text] | ]; [ | exact Hwf ].
    destruct (remaining <=? ms)%nat; [ apply validate_wf | exact Hwf ].
  - destruct (step_document diagnostic rt ev Hother) as (-> & _). exact Hwf.
Qed.

(** X21. Every document the editor ever holds is well formed: whatever
    happens after the component is mounted, the document is the sample,
    [null] or a value that [JSON.parse] returned, so that within each of
    its objects no key occurs twice and the keys stand in the order of own
    property keys. The trees and paths above are built from such
    documents only. *)
Theorem documents_are_well_formed (events : list Event) :
  let document := parsedJson (state (run diagnostic mount events)) in
  wf document = true /\ distinct_keys document = true.
Proof.
  cbv zeta.
  assert (Hwf : wf (parsedJson (state (run diagnostic mount events))) = true).
  { assert (Hmount : wf (parsedJson (state mount)) = true) by (vm_compute; reflexivity).
    revert Hmount. generalize mount.
    induction events as [ | ev events IH ]; intros rt Hrt; [ exact Hrt | ].
    apply (IH (step diagnostic rt ev)), step_wf, Hrt. }
  split; [ exact Hwf | now apply wf_distinct_keys ].
Qed.

End Documents.

(** ** An empty container that is expanded *)

(** X22. A container without entries whose path is in the expand state (as
    after Expand All) is drawn as one row that reads key, colon and the
    opening bracket, and stops there: the closing bracket of an expanded
    container is drawn after its children, and only when there are some.
    The row has no click action. *)
Theorem expanded_empty_container_row (expanded : gset string) (k : string)
    (v : JsonValue) (p : string) (depth : nat) :
  is_container (typeOf v) = true ->
  entries v = [] ->
  p ∈ expanded ->
  let row := renderNode (createNode expanded k v p) depth in
  innerText row = k +:+ ":" +:+ (if is_array (typeOf v) then "[" else "{") /\
  click_targets row = [] /\
  count_class "tree-item" row = 1%nat.
Proof.
  intros Hcontainer Hentries Hin. cbv zeta.
  rewrite createNode_fields, Hcontainer, Hentries.
  rewrite (bool_decide_eq_true_2 _ Hin).
  destruct v; try discriminate; cbn; autorewrite with strings; repeat split.
Qed.

Lemma expanded_empty_container_row_list :
  innerText (renderNode (createNode {["root.a"]} "a" (JArray []) "root.a") 0) = "a:[".
Proof.
  destruct (expanded_empty_container_row {["root.a"]} "a" (JArray []) "root.a" 0)
    as (Htext & _).
  - reflexivity.
  - reflexivity.
  - now apply elem_of_singleton.
  - exact Htext.
Defined.
